(** * Visibility of a target from a satellite: a model of
      [across_api/base/visibility.py] ([VisibilityBase]).

    The Python class is embedded as a record of attributes threaded through a
    state-and-exception monad.  Attributes probed with [hasattr] are optional
    fields; numpy boolean arrays are lists of booleans, with basic slicing of a
    provider array modelled as a view into that array; datetimes are integers
    and indices are natural numbers. *)

From Stdlib Require Import String.
From Stdlib Require Import List Bool ZArith Lia PeanoNat.
Import ListNotations.

(** ** Python results *)

Inductive exn : Type :=
| AttributeError   (* reading an attribute that was never assigned *)
| IndexError       (* indexing past the end of an array *)
| ValueError       (* numpy: operands could not be broadcast together *)
| TypeError.       (* an operand of the wrong type, such as [None] *)

Inductive result (A : Type) : Type :=
| Ok (a : A)
| Raise (e : exn).

Arguments Ok {A} a.
Arguments Raise {A} e.

Definition rbind {A B} (r : result A) (f : A -> result B) : result B :=
  match r with
  | Ok a => f a
  | Raise e => Raise e
  end.

(** ** numpy on one-dimensional arrays *)

Module Np.

(** [a[s:e]] for non-negative [s] and [e]; out-of-range bounds are clipped. *)
Definition slice {A} (l : list A) (s e : nat) : list A :=
  firstn (e - s) (skipn s l).

Definition zip_with {A B C} (f : A -> B -> C) (xs : list A) (ys : list B)
  : list C :=
  map (fun p => f (fst p) (snd p)) (combine xs ys).

(** An elementwise binary operation: equal lengths, or one operand of length
    one which is stretched; anything else is a [ValueError]. *)
Definition broadcast2 {A B C} (f : A -> B -> C) (xs : list A) (ys : list B)
  : result (list C) :=
  if length xs =? length ys then Ok (zip_with f xs ys)
  else match xs, ys with
       | [x], _ => Ok (map (f x) ys)
       | _, [y] => Ok (map (fun x => f x y) xs)
       | _, _ => Raise ValueError
       end.

(** [dst += src] on boolean arrays: addition of booleans is logical or, and
    the result must have the shape of [dst]. *)
Definition iadd (dst src : list bool) : result (list bool) :=
  if length src =? length dst then Ok (zip_with orb dst src)
  else match src with
       | [b] => Ok (map (fun d => d || b) dst)
       | _ => Raise ValueError
       end.

(** Writing [l] through a view that starts at [off]. *)
Definition splice {A} (arr : list A) (off : nat) (l : list A) : list A :=
  firstn off arr ++ l ++ skipn (off + length l) arr.

(** [a[i]] for a non-negative [i]. *)
Definition getitem {A} (l : list A) (i : nat) : result A :=
  match nth_error l i with
  | Some x => Ok x
  | None => Raise IndexError
  end.

End Np.

(** ** astropy

    Angles are floating-point quantities in degrees; coordinates and vectors
    are astropy objects.  The model is parametric in them: only the operations
    the class calls are named, and every statement below holds for any
    arithmetic, rounded or exact. *)

Class Astropy : Type := {
  Quantity : Type;
  qadd : Quantity -> Quantity -> Quantity;
  qsub : Quantity -> Quantity -> Quantity;
  qlt : Quantity -> Quantity -> bool;
  q90 : Quantity;                                  (* the literal [90] *)
  SkyCoord : Type;
  Vec : Type;
  mkSkyCoord : Quantity -> Quantity -> SkyCoord;   (* [SkyCoord(ra, dec)] *)
  separation : SkyCoord -> SkyCoord -> Quantity;   (* [a.separation(b)] *)
  to_fk5 : Z -> SkyCoord -> SkyCoord;  (* [sc.transform_to(FK5(equinox=t))] *)
  cartesian : Vec -> SkyCoord;   (* [SkyCoord(CartesianRepresentation(v))] *)
  vneg : Vec -> Vec                                (* [-v] *)
}.

(** A visibility window: [win[0]] and [win[1]]. *)
Definition Window : Type := (Z * Z)%type.

(** Modelled from the spec: the job-status object ([JobInfo], schema.py) is not
    part of the source file; a warning is attached to it. *)
Record JobInfo : Type := { warnings : list string }.

(** Modelled from the spec: [JobInfo.warning] attaches an advisory warning to
    the status object. *)
Definition warning (j : JobInfo) (msg : string) : JobInfo :=
  {| warnings := warnings j ++ [msg] |}.

(** Modelled from the spec: the SAA provider ([SAABase], saa.py) is not part
    of the source file; it owns a precomputed boolean array aligned with the
    ephemeris grid, a numpy array like the other constraint arrays, which is
    what accumulating into its slice with [+=] takes for granted. *)
Record SAA : Type := { saa_insaacons : list bool }.

(** A boolean numpy array held by the query: either an array of its own, or a
    view [saa.insaacons[off : off + len]] into the provider's array. *)
Inductive ndarray : Type :=
| Owned (l : list bool)
| SaaView (off len : nat).

Inductive GetResult : Type :=
| RFalse    (* [return False] *)
| RNone.    (* falling off the end of the method *)

Section Visibility.

Context {AP : Astropy}.

(** Modelled from the spec: the ephemeris provider ([EphemBase], ephem.py) is
    not part of the source file; these are the attributes the class reads. *)
Record Ephem : Type := {
  eph_timestamp : list Z;
  eph_earth : list SkyCoord;
  eph_sun : list SkyCoord;
  eph_moon : list SkyCoord;
  eph_pole : list SkyCoord;
  eph_earthsize : list Quantity;
  eph_velocity : bool;
  eph_velvec : option (list Vec);
  eph_polevec : option (list Vec);
  eph_apparent : bool;
  ephindex : Z -> nat
}.

(** [skycoord] is a single coordinate, or one coordinate per sample. *)
Inductive Coord : Type :=
| Scalar (c : SkyCoord)
| Frame (cs : list SkyCoord).

(** The attributes of a [VisibilityBase] instance.  The fields from
    [_inearthcons] on exist only once assigned. *)
Record Visibility : Type := {
  ram_cons : bool;
  pole_cons : bool;
  sun_cons : bool;
  moon_cons : bool;
  earth_cons : bool;
  saa_cons : bool;
  earthoccult : Quantity;
  moonoccult : Quantity;
  sunoccult : Quantity;
  ramsize : Quantity;
  sunextra : Quantity;
  ramextra : Quantity;
  earthextra : Quantity;
  moonextra : Quantity;
  isat : bool;
  entries : list Window;
  ra : Quantity;
  dec : Quantity;
  status : JobInfo;
  begin : Z;
  end_ : Z;
  saa : SAA;
  ephem : Ephem;
  _inearthcons : option (list bool);
  _inramcons : option (list bool);
  ramang : option (list Quantity);
  _inpolecons : option (list bool);
  _insuncons : option (list bool);
  _inmooncons : option (list bool);
  _skycoord : option Coord;
  inconstraint : option ndarray
}.

(** *** Attribute assignment *)

Definition set_ram_cons (v : bool) (st : Visibility) : Visibility :=
  Build_Visibility v (pole_cons st) (sun_cons st) (moon_cons st) (earth_cons
    st) (saa_cons st) (earthoccult st) (moonoccult st) (sunoccult st) (ramsize
    st) (sunextra st) (ramextra st) (earthextra st) (moonextra st) (isat st)
    (entries st) (ra st) (dec st) (status st) (begin st) (end_ st) (saa st)
    (ephem st) (_inearthcons st) (_inramcons st) (ramang st) (_inpolecons st)
    (_insuncons st) (_inmooncons st) (_skycoord st) (inconstraint st).

Definition set_pole_cons (v : bool) (st : Visibility) : Visibility :=
  Build_Visibility (ram_cons st) v (sun_cons st) (moon_cons st) (earth_cons
    st) (saa_cons st) (earthoccult st) (moonoccult st) (sunoccult st) (ramsize
    st) (sunextra st) (ramextra st) (earthextra st) (moonextra st) (isat st)
    (entries st) (ra st) (dec st) (status st) (begin st) (end_ st) (saa st)
    (ephem st) (_inearthcons st) (_inramcons st) (ramang st) (_inpolecons st)
    (_insuncons st) (_inmooncons st) (_skycoord st) (inconstraint st).

Definition set_sun_cons (v : bool) (st : Visibility) : Visibility :=
  Build_Visibility (ram_cons st) (pole_cons st) v (moon_cons st) (earth_cons
    st) (saa_cons st) (earthoccult st) (moonoccult st) (sunoccult st) (ramsize
    st) (sunextra st) (ramextra st) (earthextra st) (moonextra st) (isat st)
    (entries st) (ra st) (dec st) (status st) (begin st) (end_ st) (saa st)
    (ephem st) (_inearthcons st) (_inramcons st) (ramang st) (_inpolecons st)
    (_insuncons st) (_inmooncons st) (_skycoord st) (inconstraint st).

Definition set_moon_cons (v : bool) (st : Visibility) : Visibility :=
  Build_Visibility (ram_cons st) (pole_cons st) (sun_cons st) v (earth_cons
    st) (saa_cons st) (earthoccult st) (moonoccult st) (sunoccult st) (ramsize
    st) (sunextra st) (ramextra st) (earthextra st) (moonextra st) (isat st)
    (entries st) (ra st) (dec st) (status st) (begin st) (end_ st) (saa st)
    (ephem st) (_inearthcons st) (_inramcons st) (ramang st) (_inpolecons st)
    (_insuncons st) (_inmooncons st) (_skycoord st) (inconstraint st).

Definition set_earth_cons (v : bool) (st : Visibility) : Visibility :=
  Build_Visibility (ram_cons st) (pole_cons st) (sun_cons st) (moon_cons st) v
    (saa_cons st) (earthoccult st) (moonoccult st) (sunoccult st) (ramsize st)
    (sunextra st) (ramextra st) (earthextra st) (moonextra st) (isat st)
    (entries st) (ra st) (dec st) (status st) (begin st) (end_ st) (saa st)
    (ephem st) (_inearthcons st) (_inramcons st) (ramang st) (_inpolecons st)
    (_insuncons st) (_inmooncons st) (_skycoord st) (inconstraint st).

Definition set_saa_cons (v : bool) (st : Visibility) : Visibility :=
  Build_Visibility (ram_cons st) (pole_cons st) (sun_cons st) (moon_cons st)
    (earth_cons st) v (earthoccult st) (moonoccult st) (sunoccult st) (ramsize
    st) (sunextra st) (ramextra st) (earthextra st) (moonextra st) (isat st)
    (entries st) (ra st) (dec st) (status st) (begin st) (end_ st) (saa st)
    (ephem st) (_inearthcons st) (_inramcons st) (ramang st) (_inpolecons st)
    (_insuncons st) (_inmooncons st) (_skycoord st) (inconstraint st).

Definition set_entries (v : list Window) (st : Visibility) : Visibility :=
  Build_Visibility (ram_cons st) (pole_cons st) (sun_cons st) (moon_cons st)
    (earth_cons st) (saa_cons st) (earthoccult st) (moonoccult st) (sunoccult
    st) (ramsize st) (sunextra st) (ramextra st) (earthextra st) (moonextra
    st) (isat st) v (ra st) (dec st) (status st) (begin st) (end_ st) (saa st)
    (ephem st) (_inearthcons st) (_inramcons st) (ramang st) (_inpolecons st)
    (_insuncons st) (_inmooncons st) (_skycoord st) (inconstraint st).

Definition set_status (v : JobInfo) (st : Visibility) : Visibility :=
  Build_Visibility (ram_cons st) (pole_cons st) (sun_cons st) (moon_cons st)
    (earth_cons st) (saa_cons st) (earthoccult st) (moonoccult st) (sunoccult
    st) (ramsize st) (sunextra st) (ramextra st) (earthextra st) (moonextra
    st) (isat st) (entries st) (ra st) (dec st) v (begin st) (end_ st) (saa
    st) (ephem st) (_inearthcons st) (_inramcons st) (ramang st) (_inpolecons
    st) (_insuncons st) (_inmooncons st) (_skycoord st) (inconstraint st).

Definition set_begin (v : Z) (st : Visibility) : Visibility :=
  Build_Visibility (ram_cons st) (pole_cons st) (sun_cons st) (moon_cons st)
    (earth_cons st) (saa_cons st) (earthoccult st) (moonoccult st) (sunoccult
    st) (ramsize st) (sunextra st) (ramextra st) (earthextra st) (moonextra
    st) (isat st) (entries st) (ra st) (dec st) (status st) v (end_ st) (saa
    st) (ephem st) (_inearthcons st) (_inramcons st) (ramang st) (_inpolecons
    st) (_insuncons st) (_inmooncons st) (_skycoord st) (inconstraint st).

Definition set_saa (v : SAA) (st : Visibility) : Visibility :=
  Build_Visibility (ram_cons st) (pole_cons st) (sun_cons st) (moon_cons st)
    (earth_cons st) (saa_cons st) (earthoccult st) (moonoccult st) (sunoccult
    st) (ramsize st) (sunextra st) (ramextra st) (earthextra st) (moonextra
    st) (isat st) (entries st) (ra st) (dec st) (status st) (begin st) (end_
    st) v (ephem st) (_inearthcons st) (_inramcons st) (ramang st)
    (_inpolecons st) (_insuncons st) (_inmooncons st) (_skycoord st)
    (inconstraint st).

Definition set_inearthcons (v : option (list bool)) (st : Visibility) : Visibility :=
  Build_Visibility (ram_cons st) (pole_cons st) (sun_cons st) (moon_cons st)
    (earth_cons st) (saa_cons st) (earthoccult st) (moonoccult st) (sunoccult
    st) (ramsize st) (sunextra st) (ramextra st) (earthextra st) (moonextra
    st) (isat st) (entries st) (ra st) (dec st) (status st) (begin st) (end_
    st) (saa st) (ephem st) v (_inramcons st) (ramang st) (_inpolecons st)
    (_insuncons st) (_inmooncons st) (_skycoord st) (inconstraint st).

Definition set_inramcons (v : option (list bool)) (st : Visibility) : Visibility :=
  Build_Visibility (ram_cons st) (pole_cons st) (sun_cons st) (moon_cons st)
    (earth_cons st) (saa_cons st) (earthoccult st) (moonoccult st) (sunoccult
    st) (ramsize st) (sunextra st) (ramextra st) (earthextra st) (moonextra
    st) (isat st) (entries st) (ra st) (dec st) (status st) (begin st) (end_
    st) (saa st) (ephem st) (_inearthcons st) v (ramang st) (_inpolecons st)
    (_insuncons st) (_inmooncons st) (_skycoord st) (inconstraint st).

Definition set_ramang (v : option (list Quantity)) (st : Visibility) : Visibility :=
  Build_Visibility (ram_cons st) (pole_cons st) (sun_cons st) (moon_cons st)
    (earth_cons st) (saa_cons st) (earthoccult st) (moonoccult st) (sunoccult
    st) (ramsize st) (sunextra st) (ramextra st) (earthextra st) (moonextra
    st) (isat st) (entries st) (ra st) (dec st) (status st) (begin st) (end_
    st) (saa st) (ephem st) (_inearthcons st) (_inramcons st) v (_inpolecons
    st) (_insuncons st) (_inmooncons st) (_skycoord st) (inconstraint st).

Definition set_inpolecons (v : option (list bool)) (st : Visibility) : Visibility :=
  Build_Visibility (ram_cons st) (pole_cons st) (sun_cons st) (moon_cons st)
    (earth_cons st) (saa_cons st) (earthoccult st) (moonoccult st) (sunoccult
    st) (ramsize st) (sunextra st) (ramextra st) (earthextra st) (moonextra
    st) (isat st) (entries st) (ra st) (dec st) (status st) (begin st) (end_
    st) (saa st) (ephem st) (_inearthcons st) (_inramcons st) (ramang st) v
    (_insuncons st) (_inmooncons st) (_skycoord st) (inconstraint st).

Definition set_insuncons (v : option (list bool)) (st : Visibility) : Visibility :=
  Build_Visibility (ram_cons st) (pole_cons st) (sun_cons st) (moon_cons st)
    (earth_cons st) (saa_cons st) (earthoccult st) (moonoccult st) (sunoccult
    st) (ramsize st) (sunextra st) (ramextra st) (earthextra st) (moonextra
    st) (isat st) (entries st) (ra st) (dec st) (status st) (begin st) (end_
    st) (saa st) (ephem st) (_inearthcons st) (_inramcons st) (ramang st)
    (_inpolecons st) v (_inmooncons st) (_skycoord st) (inconstraint st).

Definition set_inmooncons (v : option (list bool)) (st : Visibility) : Visibility :=
  Build_Visibility (ram_cons st) (pole_cons st) (sun_cons st) (moon_cons st)
    (earth_cons st) (saa_cons st) (earthoccult st) (moonoccult st) (sunoccult
    st) (ramsize st) (sunextra st) (ramextra st) (earthextra st) (moonextra
    st) (isat st) (entries st) (ra st) (dec st) (status st) (begin st) (end_
    st) (saa st) (ephem st) (_inearthcons st) (_inramcons st) (ramang st)
    (_inpolecons st) (_insuncons st) v (_skycoord st) (inconstraint st).

Definition set_skycoord (v : option Coord) (st : Visibility) : Visibility :=
  Build_Visibility (ram_cons st) (pole_cons st) (sun_cons st) (moon_cons st)
    (earth_cons st) (saa_cons st) (earthoccult st) (moonoccult st) (sunoccult
    st) (ramsize st) (sunextra st) (ramextra st) (earthextra st) (moonextra
    st) (isat st) (entries st) (ra st) (dec st) (status st) (begin st) (end_
    st) (saa st) (ephem st) (_inearthcons st) (_inramcons st) (ramang st)
    (_inpolecons st) (_insuncons st) (_inmooncons st) v (inconstraint st).

Definition set_inconstraint (v : option ndarray) (st : Visibility) : Visibility :=
  Build_Visibility (ram_cons st) (pole_cons st) (sun_cons st) (moon_cons st)
    (earth_cons st) (saa_cons st) (earthoccult st) (moonoccult st) (sunoccult
    st) (ramsize st) (sunextra st) (ramextra st) (earthextra st) (moonextra
    st) (isat st) (entries st) (ra st) (dec st) (status st) (begin st) (end_
    st) (saa st) (ephem st) (_inearthcons st) (_inramcons st) (ramang st)
    (_inpolecons st) (_insuncons st) (_inmooncons st) (_skycoord st) v.

(** *** The collaborators that live outside the source file *)

(** What the class calls on its base classes and helper modules. *)
Class Collaborators : Type := {
  (** [round_time(t, 60)] (functions.py). *)
  round_time : Z -> Z -> Z;
  (** [self.validate_get()] (common.py): the verdict and the status object it
      leaves behind. *)
  validate_get : Visibility -> bool * JobInfo;
  (** [self.make_windows(inconstraint)] (window.py), given the instance and
      the contents of the array. *)
  make_windows : Visibility -> list bool -> list Window
}.

Context {CO : Collaborators}.

(** *** The state-and-exception monad of a method call *)

Definition M (A : Type) : Type := Visibility -> result (A * Visibility).

Definition ret {A} (a : A) : M A := fun st => Ok (a, st).

Definition bind {A B} (m : M A) (f : A -> M B) : M B :=
  fun st => match m st with
            | Ok (a, st') => f a st'
            | Raise e => Raise e
            end.

Definition lift {A} (r : result A) : M A :=
  fun st => match r with
            | Ok a => Ok (a, st)
            | Raise e => Raise e
            end.

Definition gets {A} (f : Visibility -> A) : M A := fun st => Ok (f st, st).

Definition assign (f : Visibility -> Visibility) : M unit :=
  fun st => Ok (tt, f st).

Notation "x <- c1 ;; c2" := (bind c1 (fun x => c2))
  (at level 61, c1 at next level, right associativity).
Notation "c1 ;;; c2" := (bind c1 (fun _ => c2))
  (at level 61, right associativity).

(** *** Properties of the instance *)

Definition ephstart (st : Visibility) : nat := ephindex (ephem st) (begin st).

Definition ephstop (st : Visibility) : nat :=
  ephindex (ephem st) (end_ st) + 1.

Definition active {A} (st : Visibility) (l : list A) : list A :=
  Np.slice l (ephstart st) (ephstop st).

Definition timestamp (st : Visibility) : list Z :=
  active st (eph_timestamp (ephem st)).

(** [len(self)] *)
Definition len (st : Visibility) : nat := length (timestamp st).

(** [self.entries[i]] *)
Definition getitem (st : Visibility) (i : nat) : result Window :=
  Np.getitem (entries st) i.

(** [coords.separation(sc)], elementwise, a scalar [sc] being stretched. *)
Definition separation_arr (cs : list SkyCoord) (sc : Coord)
  : result (list Quantity) :=
  match sc with
  | Scalar c => Ok (map (fun x => separation x c) cs)
  | Frame l => Np.broadcast2 separation cs l
  end.

Definition skycoord : M Coord := fun st =>
  match _skycoord st with
  | Some sc => Ok (sc, st)
  | None =>
      let sc :=
        if eph_apparent (ephem st)
        then Frame (map (fun t => to_fk5 t (mkSkyCoord (ra st) (dec st)))
                        (active st (eph_timestamp (ephem st))))
        else Scalar (mkSkyCoord (ra st) (dec st)) in
      Ok (sc, set_skycoord (Some sc) st)
  end.

(** [occult * u.deg], with [extra * u.deg] added unless the target is
    satellite-relative. *)
Definition with_extra (st : Visibility) (occult extra : Quantity) : Quantity :=
  if isat st then occult else qadd occult extra.

Definition inearthcons : M (list bool) := fun st =>
  match _inearthcons st with
  | Some a => Ok (a, st)
  | None =>
      (sc <- skycoord ;;
       earthang <- lift (separation_arr (active st (eph_earth (ephem st))) sc) ;;
       let earth_cons := with_extra st (earthoccult st) (earthextra st) in
       a <- lift (Np.broadcast2 qlt earthang
                    (map (qadd earth_cons)
                         (active st (eph_earthsize (ephem st))))) ;;
       assign (set_inearthcons (Some a)) ;;;
       ret a) st
  end.

Definition inramcons : M (option (list bool)) := fun st =>
  match eph_velocity (ephem st), eph_velvec (ephem st) with
  | true, Some velvec =>
      match _inramcons st with
      | Some a => Ok (Some a, st)
      | None =>
          (sc <- skycoord ;;
           ang <- lift (separation_arr (map cartesian (active st velvec)) sc) ;;
           assign (set_ramang (Some ang)) ;;;
           let ram_cons := with_extra st (ramsize st) (ramextra st) in
           let a := map (fun x => qlt x ram_cons) ang in
           assign (set_inramcons (Some a)) ;;;
           ret (Some a)) st
      end
  | _, _ => Ok (None, st)
  end.

Definition inpolecons : M (option (list bool)) := fun st =>
  match eph_velocity (ephem st), eph_polevec (ephem st) with
  | true, Some polevec =>
      match _inpolecons st with
      | Some a => Ok (Some a, st)
      | None =>
          (let pole_cons0 :=
             map (fun es => qsub (qadd es (earthoccult st)) q90)
                 (active st (eph_earthsize (ephem st))) in
           let pole_cons :=
             if isat st then pole_cons0
             else map (fun x => qadd x (earthextra st)) pole_cons0 in
           sc <- skycoord ;;
           north_dist <- lift (separation_arr
                                 (active st (eph_pole (ephem st))) sc) ;;
           south_dist <- lift (separation_arr
                                 (map (fun v => cartesian (vneg v))
                                      (active st polevec)) sc) ;;
           s <- lift (Np.broadcast2 qlt south_dist pole_cons) ;;
           n <- lift (Np.broadcast2 qlt north_dist pole_cons) ;;
           a <- lift (Np.broadcast2 orb s n) ;;
           assign (set_inpolecons (Some a)) ;;;
           ret (Some a)) st
      end
  | _, _ => Ok (None, st)
  end.

Definition insuncons : M (list bool) := fun st =>
  match _insuncons st with
  | Some a => Ok (a, st)
  | None =>
      (sc <- skycoord ;;
       sunang <- lift (separation_arr (active st (eph_sun (ephem st))) sc) ;;
       let sun_cons := with_extra st (sunoccult st) (sunextra st) in
       let a := map (fun x => qlt x sun_cons) sunang in
       assign (set_insuncons (Some a)) ;;;
       ret a) st
  end.

Definition inmooncons : M (list bool) := fun st =>
  match _inmooncons st with
  | Some a => Ok (a, st)
  | None =>
      (sc <- skycoord ;;
       moonang <- lift (separation_arr (active st (eph_moon (ephem st))) sc) ;;
       let moon_cons := with_extra st (moonoccult st) (moonextra st) in
       let a := map (fun x => qlt x moon_cons) moonang in
       assign (set_inmooncons (Some a)) ;;;
       ret a) st
  end.

(** [self.saa.insaacons[self.ephstart : self.ephstop]]: basic slicing of a
    numpy array gives a view, not a copy. *)
Definition insaacons (st : Visibility) : ndarray :=
  let arr := saa_insaacons (saa st) in
  SaaView (Nat.min (ephstart st) (length arr)) (length (active st arr)).

(** The elements an array value denotes in a given state. *)
Definition contents (st : Visibility) (a : ndarray) : list bool :=
  match a with
  | Owned l => l
  | SaaView off n => Np.slice (saa_insaacons (saa st)) off (off + n)
  end.

(** Overwriting the elements of an array value in place. *)
Definition store (a : ndarray) (l : list bool) (st : Visibility)
  : ndarray * Visibility :=
  match a with
  | Owned _ => (Owned l, st)
  | SaaView off _ =>
      (a, set_saa {| saa_insaacons :=
                       Np.splice (saa_insaacons (saa st)) off l |} st)
  end.

(** [self.inconstraint += src]: the array bound to [inconstraint] is updated
    in place and bound again. *)
Definition iadd_inconstraint (src : list bool) : M unit := fun st =>
  match inconstraint st with
  | None => Raise AttributeError
  | Some a =>
      match Np.iadd (contents st a) src with
      | Ok l =>
          let (a', st') := store a l st in
          Ok (tt, set_inconstraint (Some a') st')
      | Raise e => Raise e
      end
  end.

Definition when (b : bool) (m : M unit) : M unit :=
  if b then m else ret tt.

Definition no_visibility : string :=
  "No visibility for target in given time period."%string.

Definition get : M GetResult :=
  b <- gets begin ;;
  assign (set_begin (round_time b 60)) ;;;
  assign (set_entries []) ;;;
  v <- gets validate_get ;;
  assign (set_status (snd v)) ;;;
  if negb (fst v) then ret RFalse
  else
    n <- gets len ;;
    assign (set_inconstraint (Some (Owned (repeat false n)))) ;;;
    c <- gets saa_cons ;;
    when c (a <- gets insaacons ;; assign (set_inconstraint (Some a))) ;;;
    c <- gets earth_cons ;;
    when c (a <- inearthcons ;; iadd_inconstraint a) ;;;
    c <- gets moon_cons ;;
    when c (a <- inmooncons ;; iadd_inconstraint a) ;;;
    c <- gets sun_cons ;;
    when c (a <- insuncons ;; iadd_inconstraint a) ;;;
    c <- gets pole_cons ;;
    when c (p <- inpolecons ;;
            match p with
            | None => ret tt
            | Some _ =>
                p' <- inpolecons ;;
                match p' with
                | Some a => iadd_inconstraint a
                | None => lift (Raise TypeError)
                end
            end) ;;;
    c <- gets ram_cons ;;
    when c (r <- inramcons ;;
            match r with
            | None => ret tt
            | Some _ =>
                r' <- inramcons ;;
                match r' with
                | Some a => iadd_inconstraint a
                | None => lift (Raise TypeError)
                end
            end) ;;;
    a <- gets inconstraint ;;
    match a with
    | None => lift (Raise AttributeError)
    | Some a =>
        assign (fun st => set_entries (make_windows st (contents st a)) st) ;;;
        e <- gets entries ;;
        if length e =? 0
        then assign (fun st => set_status (warning (status st) no_visibility) st)
             ;;; ret RNone
        else ret RNone
    end.

Definition constraint (index : nat) : M string :=
  ts <- gets timestamp ;;
  t <- lift (Np.getitem ts index) ;;
  b <- gets begin ;;
  e <- gets end_ ;;
  if ((t <=? b) || (t >=? e))%Z then ret "Window"%string
  else
    a <- gets inconstraint ;;
    match a with
    | None => lift (Raise AttributeError)
    | Some a =>
        c <- gets (fun st => contents st a) ;;
        blocked <- lift (Np.getitem c index) ;;
        if blocked : bool then
          s <- insuncons ;;
          sun <- lift (Np.getitem s index) ;;
          if sun : bool then ret "Sun"%string
          else
            m <- inmooncons ;;
            moon <- lift (Np.getitem m index) ;;
            if moon : bool then ret "Moon"%string
            else
              ea <- inearthcons ;;
              earth <- lift (Np.getitem ea index) ;;
              if earth : bool then ret "Earth"%string
              else
                sa <- gets (fun st => contents st (insaacons st)) ;;
                insaa <- lift (Np.getitem sa index) ;;
                if insaa : bool then ret "SAA"%string else ret "Unknown"%string
        else ret "None"%string
    end.

Fixpoint scan_windows (wins : list Window) (dttime : Z) : bool :=
  match wins with
  | [] => false
  | win :: rest =>
      if ((dttime >=? fst win) && (dttime <=? snd win))%Z then true
      else scan_windows rest dttime
  end.

Definition visible (st : Visibility) (dttime : Z) : bool :=
  scan_windows (entries st) dttime.

(** *** The array each accessor denotes

    What a read of an accessor returns in a given state, as a function of the
    state: the cached array when there is one, the freshly computed array
    otherwise. *)

Definition sky_fresh (st : Visibility) : Coord :=
  if eph_apparent (ephem st)
  then Frame (map (fun t => to_fk5 t (mkSkyCoord (ra st) (dec st)))
                  (active st (eph_timestamp (ephem st))))
  else Scalar (mkSkyCoord (ra st) (dec st)).

Definition sky_val (st : Visibility) : Coord :=
  match _skycoord st with
  | Some sc => sc
  | None => sky_fresh st
  end.

Definition earth_fresh (st : Visibility) (sc : Coord) : result (list bool) :=
  rbind (separation_arr (active st (eph_earth (ephem st))) sc)
    (fun ang =>
       Np.broadcast2 qlt ang
         (map (qadd (with_extra st (earthoccult st) (earthextra st)))
              (active st (eph_earthsize (ephem st))))).

Definition earth_val (st : Visibility) : result (list bool) :=
  match _inearthcons st with
  | Some a => Ok a
  | None => earth_fresh st (sky_val st)
  end.

Definition sun_fresh (st : Visibility) (sc : Coord) : result (list bool) :=
  rbind (separation_arr (active st (eph_sun (ephem st))) sc)
    (fun ang =>
       Ok (map (fun x => qlt x (with_extra st (sunoccult st) (sunextra st)))
               ang)).

Definition sun_val (st : Visibility) : result (list bool) :=
  match _insuncons st with
  | Some a => Ok a
  | None => sun_fresh st (sky_val st)
  end.

Definition moon_fresh (st : Visibility) (sc : Coord) : result (list bool) :=
  rbind (separation_arr (active st (eph_moon (ephem st))) sc)
    (fun ang =>
       Ok (map (fun x => qlt x (with_extra st (moonoccult st) (moonextra st)))
               ang)).

Definition moon_val (st : Visibility) : result (list bool) :=
  match _inmooncons st with
  | Some a => Ok a
  | None => moon_fresh st (sky_val st)
  end.

Definition ram_fresh (st : Visibility) (velvec : list Vec) (sc : Coord)
  : result (list bool) :=
  rbind (separation_arr (map cartesian (active st velvec)) sc)
    (fun ang =>
       Ok (map (fun x => qlt x (with_extra st (ramsize st) (ramextra st)))
               ang)).

Definition ram_val (st : Visibility) : result (option (list bool)) :=
  match eph_velocity (ephem st), eph_velvec (ephem st) with
  | true, Some velvec =>
      match _inramcons st with
      | Some a => Ok (Some a)
      | None => rbind (ram_fresh st velvec (sky_val st)) (fun a => Ok (Some a))
      end
  | _, _ => Ok None
  end.

(** The threshold of the pole constraint at a sample of Earth angular radius
    [es]. *)
Definition pole_limit (st : Visibility) (es : Quantity) : Quantity :=
  let base := qsub (qadd es (earthoccult st)) q90 in
  if isat st then base else qadd base (earthextra st).

Definition pole_fresh (st : Visibility) (polevec : list Vec) (sc : Coord)
  : result (list bool) :=
  let pole_cons := map (pole_limit st) (active st (eph_earthsize (ephem st))) in
  rbind (separation_arr (active st (eph_pole (ephem st))) sc)
    (fun north_dist =>
  rbind (separation_arr (map (fun v => cartesian (vneg v)) (active st polevec))
                        sc)
    (fun south_dist =>
  rbind (Np.broadcast2 qlt south_dist pole_cons) (fun s =>
  rbind (Np.broadcast2 qlt north_dist pole_cons) (fun n =>
  Np.broadcast2 orb s n)))).

Definition pole_val (st : Visibility) : result (option (list bool)) :=
  match eph_velocity (ephem st), eph_polevec (ephem st) with
  | true, Some polevec =>
      match _inpolecons st with
      | Some a => Ok (Some a)
      | None =>
          rbind (pole_fresh st polevec (sky_val st)) (fun a => Ok (Some a))
      end
  | _, _ => Ok None
  end.

(** The provider's SAA samples over the active slice. *)
Definition saa_val (st : Visibility) : list bool :=
  active st (saa_insaacons (saa st)).

(** The state with every cached attribute removed. *)
Definition uncached (st : Visibility) : Visibility :=
  set_inearthcons None (set_inramcons None (set_ramang None
    (set_inpolecons None (set_insuncons None (set_inmooncons None
      (set_skycoord None st)))))).

(** Two states of one query that differ at most in which arrays are cached,
    and in which every accessor denotes the same array. *)
Definition same (st st' : Visibility) : Prop :=
  uncached st' = uncached st /\
  sky_val st' = sky_val st /\
  earth_val st' = earth_val st /\
  sun_val st' = sun_val st /\
  moon_val st' = moon_val st /\
  ram_val st' = ram_val st /\
  pole_val st' = pole_val st.

(** The value of a method call, its final state dropped. *)
Definition value {A} (r : result (A * Visibility)) : result A :=
  match r with
  | Ok (a, _) => Ok a
  | Raise e => Raise e
  end.

(** *** The phases of [get]

    The state in which the constraints are evaluated: [begin] rounded, the
    windows reset and the status as validation left it. *)

Definition reset (st : Visibility) : Visibility :=
  set_entries [] (set_begin (round_time (begin st) 60) st).

Definition accepted (st : Visibility) : bool :=
  fst (validate_get (reset st)).

Definition prepared (st : Visibility) : Visibility :=
  set_status (snd (validate_get (reset st))) (reset st).

(** One [+=] of the accumulation, as a function on arrays. *)
Definition accumulate (flag : bool) (arr : option (list bool))
    (acc : list bool) : list bool :=
  if flag
  then match arr with
       | Some a => Np.zip_with orb acc a
       | None => acc
       end
  else acc.

Definition combined (st : Visibility) (insaa earth moon sun : list bool)
    (pole ram : option (list bool)) : list bool :=
  accumulate (ram_cons st) ram
    (accumulate (pole_cons st) pole
       (accumulate (sun_cons st) (Some sun)
          (accumulate (moon_cons st) (Some moon)
             (accumulate (earth_cons st) (Some earth)
                (if saa_cons st then insaa else repeat false (len st)))))).

(** What one constraint contributes to sample [i]: nothing unless it is
    enabled and its array is defined. *)
Definition contribution (flag : bool) (arr : option (list bool)) (i : nat)
  : bool :=
  flag && match arr with
          | Some a => nth i a false
          | None => false
          end.

(** The last step of [get]: the windows, and the warning when there is
    none. *)
Definition finish (st : Visibility) (a : ndarray) : Visibility :=
  let st1 := set_entries (make_windows st (contents st a)) st in
  if length (entries st1) =? 0
  then set_status (warning (status st1) no_visibility) st1
  else st1.

(** Every per-constraint array covers the active slice, sample for sample. *)
Definition fits (n : nat) (r : result (list bool)) : bool :=
  match r with
  | Ok a => length a =? n
  | Raise _ => false
  end.

Definition fits_opt (n : nat) (r : result (option (list bool))) : bool :=
  match r with
  | Ok (Some a) => length a =? n
  | Ok None => true
  | Raise _ => false
  end.

Definition aligned (st : Visibility) : bool :=
  (length (saa_val st) =? len st)
  && fits (len st) (earth_val st)
  && fits (len st) (moon_val st)
  && fits (len st) (sun_val st)
  && fits_opt (len st) (pole_val st)
  && fits_opt (len st) (ram_val st).

(** The state with the combined array and the provider's SAA array
    forgotten. *)
Definition scrub (st : Visibility) : Visibility :=
  set_inconstraint None (set_saa {| saa_insaacons := [] |} st).

(** Two states of one query in which every accessor denotes the same array,
    whatever the combined array and the provider's SAA array hold. *)
Definition akin (st st' : Visibility) : Prop :=
  uncached (scrub st') = uncached (scrub st) /\
  sky_val st' = sky_val st /\
  earth_val st' = earth_val st /\
  sun_val st' = sun_val st /\
  moon_val st' = moon_val st /\
  ram_val st' = ram_val st /\
  pole_val st' = pole_val st.

(** A view lies within the provider's array. *)
Definition view_ok (st : Visibility) (a : ndarray) : Prop :=
  match a with
  | Owned _ => True
  | SaaView off n => off + n <= length (saa_insaacons (saa st))
  end.

(** The accumulation is under way: the accessors denote what they denoted
    in [st0], and [inconstraint] holds [acc], in an array of the query's own
    when the SAA constraint is disabled. *)
Definition accumulating (st0 st : Visibility) (acc : list bool) : Prop :=
  akin st0 st /\
  exists a,
    inconstraint st = Some a /\ contents st a = acc /\ view_ok st a /\
    (saa_cons st0 = false -> saa st = saa st0 /\ exists l, a = Owned l).

(** *** Switching the ram and pole constraints on and off *)

Definition toggled (r p : bool) (st : Visibility) : Visibility :=
  set_ram_cons r (set_pole_cons p st).

(** The conditions under which the accessors compute an array rather than
    return [None]. *)
Definition ram_defined (st : Visibility) : bool :=
  eph_velocity (ephem st)
  && match eph_velvec (ephem st) with Some _ => true | None => false end.

Definition pole_defined (st : Visibility) : bool :=
  eph_velocity (ephem st)
  && match eph_polevec (ephem st) with Some _ => true | None => false end.



(** *** Vocabulary of the statements *)

Definition with_flags (c_saa c_earth c_moon c_sun c_pole c_ram : bool)
    (st : Visibility) : Visibility :=
  set_saa_cons c_saa (set_earth_cons c_earth (set_moon_cons c_moon
    (set_sun_cons c_sun (set_pole_cons c_pole (set_ram_cons c_ram st))))).

(** A further read returns what the first read returned and changes
    nothing. *)
Definition idempotent {A} (m : M A) : Prop :=
  forall st v st1, m st = Ok (v, st1) -> m st1 = Ok (v, st1).

(** What [constraint] answers, as a function of the arrays the accessors
    denote. *)
Definition classify (st : Visibility) (index : nat) : result string :=
  rbind (Np.getitem (timestamp st) index) (fun t =>
  if ((t <=? begin st) || (t >=? end_ st))%Z then Ok "Window"%string
  else
    match inconstraint st with
    | None => Raise AttributeError
    | Some a =>
        rbind (Np.getitem (contents st a) index) (fun blocked =>
        if blocked : bool then
          rbind (sun_val st) (fun s =>
          rbind (Np.getitem s index) (fun sun =>
          if sun : bool then Ok "Sun"%string
          else
            rbind (moon_val st) (fun m =>
            rbind (Np.getitem m index) (fun moon =>
            if moon : bool then Ok "Moon"%string
            else
              rbind (earth_val st) (fun ea =>
              rbind (Np.getitem ea index) (fun earth =>
              if earth : bool then Ok "Earth"%string
              else
                rbind (Np.getitem (saa_val st) index) (fun insaa =>
                if insaa : bool then Ok "SAA"%string
                else Ok "Unknown"%string)))))))
        else Ok "None"%string)
    end).

(** The target direction at sample [i]. *)
Definition target_at (sc : Coord) (i : nat) : option SkyCoord :=
  match sc with
  | Scalar c => Some c
  | Frame l => nth_error l i
  end.

(** The providers' arrays all have one sample per grid timestamp. *)
Definition on_grid (st : Visibility) : bool :=
  let e := ephem st in
  let n := length (eph_timestamp e) in
  (length (eph_earth e) =? n)
  && (length (eph_sun e) =? n)
  && (length (eph_moon e) =? n)
  && (length (eph_pole e) =? n)
  && (length (eph_earthsize e) =? n)
  && match eph_velvec e with Some v => length v =? n | None => true end
  && match eph_polevec e with Some v => length v =? n | None => true end
  && (length (saa_insaacons (saa st)) =? n).

Definition unset {A} (o : option A) : bool :=
  match o with
  | Some _ => false
  | None => true
  end.

(** No accessor has been read yet. *)
Definition fresh (st : Visibility) : bool :=
  unset (_inearthcons st) && unset (_inramcons st) && unset (_inpolecons st)
  && unset (_insuncons st) && unset (_inmooncons st) && unset (_skycoord st).

(** Target coordinates that suit a slice of [n] samples. *)
Definition coord_fits (sc : Coord) (n : nat) : Prop :=
  match sc with
  | Scalar _ => True
  | Frame l => length l = n
  end.

(** The cached target coordinates, if any, cover the active slice. *)
Definition sky_fits (st : Visibility) : bool :=
  match _skycoord st with
  | Some (Frame l) => length l =? len st
  | _ => true
  end.

End Visibility.

Notation "x <- c1 ;; c2" := (bind c1 (fun x => c2))
  (at level 61, c1 at next level, right associativity).
Notation "c1 ;;; c2" := (bind c1 (fun _ => c2))
  (at level 61, right associativity).

(** ** A concrete instance, for evaluating the model

    Angles are whole degrees and a direction is a position on a line: enough
    to run every method on explicit data. *)

Module Demo.

#[export] Instance astropy : Astropy := {|
  Quantity := Z;
  qadd := Z.add;
  qsub := Z.sub;
  qlt := Z.ltb;
  q90 := 90%Z;
  SkyCoord := Z;
  Vec := Z;
  mkSkyCoord := fun ra _ => ra;
  separation := fun a b => Z.abs (a - b);
  to_fk5 := fun _ c => c;
  cartesian := fun v => v;
  vneg := Z.opp
|}.

(** Rounding to the nearest multiple of [step]. *)
Definition round_nearest (t step : Z) : Z :=
  (((t + step / 2) / step) * step)%Z.

(** A request is accepted when its time range is not reversed. *)
Definition validate_range (st : Visibility) : bool * JobInfo :=
  if (begin st <=? end_ st)%Z then (true, status st)
  else (false, warning (status st) "bad range"%string).

(** Modelled from the spec: [make_windows] (window.py) turns each maximal
    run of clear samples into the interval from its first to its last
    timestamp. *)
Fixpoint runs (ts : list Z) (cons : list bool) (open : option (Z * Z))
  : list Window :=
  match ts, cons with
  | t :: ts', c :: cons' =>
      if c : bool
      then match open with
           | Some w => w :: runs ts' cons' None
           | None => runs ts' cons' None
           end
      else match open with
           | Some (b, _) => runs ts' cons' (Some (b, t))
           | None => runs ts' cons' (Some (t, t))
           end
  | _, _ => match open with Some w => [w] | None => [] end
  end.

Definition clear_runs (st : Visibility) (cons : list bool) : list Window :=
  runs (timestamp st) cons None.

#[export] Instance collaborators : Collaborators := {|
  round_time := round_nearest;
  validate_get := validate_range;
  make_windows := clear_runs
|}.

(** Six samples a minute apart; the grid index of a time is its minute. *)
Definition ephem6 (vel : bool) (velvec polevec : option (list Z)) : Ephem :=
  {| eph_timestamp := [0; 60; 120; 180; 240; 300]%Z;
     eph_earth := [100; 100; 20; 100; 100; 100]%Z;
     eph_sun := [100; 100; 100; 100; 100; 100]%Z;
     eph_moon := [100; 100; 100; 100; 100; 100]%Z;
     eph_pole := [200; 200; 200; 200; 5; 200]%Z;
     eph_earthsize := [70; 70; 70; 70; 70; 70]%Z;
     eph_velocity := vel;
     eph_velvec := velvec;
     eph_polevec := polevec;
     eph_apparent := false;
     ephindex := fun t => Z.to_nat (t / 60) |}.

Definition query (target : Z) (saa_on earth_on pole_on ram_on : bool)
    (insaa : list bool) (eph : Ephem) : Visibility :=
  {| ram_cons := ram_on; pole_cons := pole_on; sun_cons := true;
     moon_cons := true; earth_cons := earth_on; saa_cons := saa_on;
     earthoccult := 30%Z; moonoccult := 20%Z; sunoccult := 45%Z;
     ramsize := 10%Z; sunextra := 0%Z; ramextra := 0%Z; earthextra := 0%Z;
     moonextra := 0%Z; isat := false; entries := [];
     ra := target; dec := 0%Z; status := {| warnings := [] |};
     begin := 0%Z; end_ := 300%Z;
     saa := {| saa_insaacons := insaa |}; ephem := eph;
     _inearthcons := None; _inramcons := None; ramang := None;
     _inpolecons := None; _insuncons := None; _inmooncons := None;
     _skycoord := None; inconstraint := None |}.

Definition no_saa : list bool := [false; false; false; false; false; false].

Definition velvec6 : option (list Z) :=
  Some [200; 8; 200; 200; 200; 200]%Z.

Definition polevec6 : option (list Z) :=
  Some [200; 200; 200; 200; 5; 200]%Z.

(** Every constraint enabled, over an ephemeris with velocity data. *)
Definition q_all : Visibility :=
  query 0%Z true true true true no_saa (ephem6 true velvec6 polevec6).

(** The same without the SAA constraint. *)
Definition q_no_saa : Visibility :=
  query 0%Z false true true true no_saa (ephem6 true velvec6 polevec6).

(** The SAA and Earth constraints only. *)
Definition q_saa_earth : Visibility :=
  query 0%Z true true false false no_saa (ephem6 true velvec6 polevec6).

(** An ephemeris without velocity and pole data. *)
Definition q_no_velocity : Visibility :=
  query 0%Z false true false false no_saa (ephem6 false None None).


(** The target sits on the Earth for the whole range. *)
Definition q_occulted : Visibility :=
  query 100%Z false true false false no_saa (ephem6 false None None).

(** The state a method call leaves behind. *)
Definition run {A} (m : M A) (q : Visibility) : Visibility :=
  match m q with
  | Ok (_, st) => st
  | Raise _ => q
  end.

Definition after (q : Visibility) : Visibility := run get q.

End Demo.

(** * Further vocabulary: the rest of the class *)

Section Saa_windows.

Context {AP : Astropy}.
Context {CO : Collaborators}.

(** The instance together with the one attribute the record above leaves
    out: [_saa_windows], which exists only once [saa_windows] has been
    read. *)
Record Instance : Type := {
  self : Visibility;
  _saa_windows : option (list Window)
}.

(** [saa_windows]: the windows of the negated SAA samples, computed on the
    first read.  A window is read here by [win.begin] and [win.end]. *)
Definition saa_windows (o : Instance) : list Window * Instance :=
  match _saa_windows o with
  | Some w => (w, o)
  | None =>
      let w := make_windows (self o)
                 (map negb (contents (self o) (insaacons (self o)))) in
      (w, {| self := self o; _saa_windows := Some w |})
  end.

Fixpoint scan_saa (wins : list Window) (dttime : Z) : bool :=
  match wins with
  | [] => false
  | win :: rest =>
      if ((dttime >=? fst win) && (dttime <=? snd win))%Z then true
      else scan_saa rest dttime
  end.

Definition insaa (o : Instance) (dttime : Z) : bool * Instance :=
  let (wins, o') := saa_windows o in
  (scan_saa wins dttime, o').

End Saa_windows.

Section Triples.

Context {AP : Astropy}.

(** A method call started in a state that satisfies [P] either returns in a
    state that satisfies [Q], or raises an exception that [E] allows. *)
Definition hoare {A} (E : exn -> Prop) (P : Visibility -> Prop) (m : M A)
    (Q : A -> Visibility -> Prop) : Prop :=
  forall st, P st ->
    match m st with
    | Ok (a, st') => Q a st'
    | Raise e => E e
    end.

Definition only_value_error (e : exn) : Prop := e = ValueError.

Definition lookup_errors (e : exn) : Prop :=
  e = IndexError \/ e = AttributeError \/ e = ValueError.

(** What the caller sets and no method assigns: the flags, the angles, the
    target, the end time and the ephemeris.  Everything a method may assign
    is blanked. *)
Definition settings (st : Visibility) : Visibility :=
  uncached (scrub (set_entries [] (set_status {| warnings := [] |}
                                     (set_begin 0%Z st)))).

(** A boolean array that was only or-ed into, and only at the indices from
    [s] up to [e]. *)
Definition grown (arr arr' : list bool) (s e : nat) : Prop :=
  length arr' = length arr /\
  (forall i, nth_error arr i = Some true -> nth_error arr' i = Some true) /\
  (forall i, i < s \/ e <= i -> nth_error arr' i = nth_error arr i).

(** The combined array is bound, and if it is a view of the provider's array
    then the view lies within the active slice and within the array. *)
Definition bound_in_slice (st : Visibility) : Prop :=
  match inconstraint st with
  | None => False
  | Some (Owned _) => True
  | Some (SaaView off n) =>
      off + n <= length (saa_insaacons (saa st)) /\
      (n = 0 \/ (ephstart st <= off /\ off + n <= ephstop st))
  end.

(** One accessor has been read between the two states. *)
Inductive reads : Visibility -> Visibility -> Prop :=
| reads_skycoord st sc st' : skycoord st = Ok (sc, st') -> reads st st'
| reads_earth st a st' : inearthcons st = Ok (a, st') -> reads st st'
| reads_sun st a st' : insuncons st = Ok (a, st') -> reads st st'
| reads_moon st a st' : inmooncons st = Ok (a, st') -> reads st st'
| reads_ram st a st' : inramcons st = Ok (a, st') -> reads st st'
| reads_pole st a st' : inpolecons st = Ok (a, st') -> reads st st'.

End Triples.

Section Get_invariants.

Context {AP : Astropy}.
Context {CO : Collaborators}.

(** While [get] accumulates: the settings are those of the call, [begin] has
    been rounded, the provider's SAA array has only been or-ed into within
    the active slice, the combined array is bound, and with the SAA
    constraint disabled it is an array of the query's own. *)
Definition accumulation_inv (st0 st : Visibility) : Prop :=
  settings st = settings st0 /\
  begin st = round_time (begin st0) 60 /\
  grown (saa_insaacons (saa st0)) (saa_insaacons (saa st))
        (ephstart st) (ephstop st) /\
  bound_in_slice st /\
  (saa_cons st0 = false ->
   saa st = saa st0 /\ exists l, inconstraint st = Some (Owned l)).

(** What [get] guarantees when it returns. *)
Definition get_post (st0 : Visibility) (r : GetResult) (st : Visibility)
  : Prop :=
  settings st = settings st0 /\
  begin st = round_time (begin st0) 60 /\
  grown (saa_insaacons (saa st0)) (saa_insaacons (saa st))
        (ephstart st) (ephstop st) /\
  (saa_cons st0 = false -> saa st = saa st0) /\
  match r with
  | RFalse => accepted st0 = false /\ st = prepared st0
  | RNone => accepted st0 = true /\ bound_in_slice st
  end.

End Get_invariants.

(** Further explicit data. *)

Module More.

Import Demo.

(** The Earth directions of this ephemeris stop after two samples. *)
Definition q_short_earth : Visibility :=
  query 0%Z false true false false no_saa
    {| eph_timestamp := [0; 60; 120; 180; 240; 300]%Z;
       eph_earth := [100; 100]%Z;
       eph_sun := [100; 100; 100; 100; 100; 100]%Z;
       eph_moon := [100; 100; 100; 100; 100; 100]%Z;
       eph_pole := [200; 200; 200; 200; 5; 200]%Z;
       eph_earthsize := [70; 70; 70; 70; 70; 70]%Z;
       eph_velocity := false;
       eph_velvec := None;
       eph_polevec := None;
       eph_apparent := false;
       ephindex := fun t => Z.to_nat (t / 60) |}.

(** A request with its time range reversed. *)
Definition q_reversed : Visibility :=
  set_begin 600%Z (set_entries [(0, 60)]%Z q_all).

(** The middle of the range only, over a provider that reports the SAA at
    the third and at the last sample. *)
Definition q_middle : Visibility :=
  set_begin 60%Z
    (query 0%Z true true true true [false; false; true; false; false; true]
       (ephem6 true velvec6 polevec6)).

Definition o_unread : Instance :=
  {| self := q_middle; _saa_windows := None |}.

End More.


(** * Properties *)

(** ** Arrays *)

Lemma slice_length {A} (l : list A) (s e : nat) :
  length (Np.slice l s e) = Nat.min (e - s) (length l - s).
Proof.
  unfold Np.slice. now rewrite length_firstn, length_skipn.
Qed.

Lemma zip_with_length {A B C} (f : A -> B -> C) xs ys :
  length xs = length ys -> length (Np.zip_with f xs ys) = length xs.
Proof.
  intros H. unfold Np.zip_with.
  rewrite length_map, length_combine. lia.
Qed.

Lemma zip_with_nth_or xs ys i :
  length xs = length ys ->
  nth i (Np.zip_with orb xs ys) false = nth i xs false || nth i ys false.
Proof.
  revert ys i. induction xs as [|x xs IH]; intros [|y ys] i H;
    simpl in H; try discriminate.
  - now destruct i.
  - destruct i as [|i]; simpl; [reflexivity|].
    apply IH. now injection H.
Qed.

Lemma iadd_same_length dst src :
  length src = length dst -> Np.iadd dst src = Ok (Np.zip_with orb dst src).
Proof.
  intros H. unfold Np.iadd. now rewrite H, Nat.eqb_refl.
Qed.

Lemma splice_length {A} (arr l : list A) off :
  off + length l <= length arr ->
  length (Np.splice arr off l) = length arr.
Proof.
  intros H. unfold Np.splice.
  rewrite !length_app, length_firstn, length_skipn. lia.
Qed.

Lemma slice_splice {A} (arr l : list A) off :
  off + length l <= length arr ->
  Np.slice (Np.splice arr off l) off (off + length l) = l.
Proof.
  intros H. unfold Np.slice, Np.splice.
  replace (off + length l - off) with (length l) by lia.
  rewrite skipn_app, length_firstn.
  replace (off - Nat.min off (length arr)) with 0 by lia.
  rewrite (skipn_all2 (firstn off arr)) by (rewrite length_firstn; lia).
  simpl. rewrite firstn_app, Nat.sub_diag. simpl.
  now rewrite firstn_all, app_nil_r.
Qed.

Lemma slice_clip {A} (l : list A) (s e : nat) :
  Np.slice l (Nat.min s (length l))
           (Nat.min s (length l) + length (Np.slice l s e))
  = Np.slice l s e.
Proof.
  rewrite slice_length. unfold Np.slice.
  destruct (Nat.le_gt_cases s (length l)) as [Hs|Hs].
  - rewrite Nat.min_l by lia.
    replace (s + Nat.min (e - s) (length l - s) - s)
      with (Nat.min (e - s) (length l - s)) by lia.
    destruct (Nat.le_gt_cases (e - s) (length l - s)) as [He|He].
    + now rewrite Nat.min_l by lia.
    + rewrite Nat.min_r by lia.
      rewrite !firstn_all2; try reflexivity; rewrite length_skipn; lia.
  - rewrite !skipn_all2 by lia. now rewrite !firstn_nil.
Qed.

(** ** Accessors *)

Section Accessors.

Context {AP : Astropy}.

Ltac run :=
  unfold inearthcons, insuncons, inmooncons, inramcons, inpolecons, skycoord,
    bind, lift, assign, ret, gets in *.

Lemma same_refl st : same st st.
Proof. repeat split. Qed.

Lemma same_trans st1 st2 st3 : same st1 st2 -> same st2 st3 -> same st1 st3.
Proof.
  unfold same. intros H1 H2.
  repeat match goal with H : _ /\ _ |- _ => destruct H end.
  repeat split; congruence.
Qed.

Lemma pole_limit_map st (l : list Quantity) :
  (if isat st
   then map (fun es => qsub (qadd es (earthoccult st)) q90) l
   else map (fun x => qadd x (earthextra st))
            (map (fun es => qsub (qadd es (earthoccult st)) q90) l))
  = map (pole_limit st) l.
Proof.
  unfold pole_limit. destruct (isat st); [reflexivity|].
  now rewrite map_map.
Qed.

(** What is computed afresh reads no cached attribute. *)
Ltac by_uncached H :=
  match goal with
  | |- ?f ?st' = ?f ?st =>
      change (f (uncached st') = f (uncached st)); now rewrite H
  | |- ?f ?st' ?x = ?f ?st ?x =>
      change (f (uncached st') x = f (uncached st) x); now rewrite H
  | |- ?f ?st' ?x ?y = ?f ?st ?x ?y =>
      change (f (uncached st') x y = f (uncached st) x y); now rewrite H
  end.

Lemma uncached_ephem st st' : uncached st' = uncached st -> ephem st' = ephem st.
Proof. intros H. by_uncached H. Qed.

Lemma sky_fresh_eq st st' :
  uncached st' = uncached st -> sky_fresh st' = sky_fresh st.
Proof. intros H. by_uncached H. Qed.

Lemma earth_val_eq st st' :
  uncached st' = uncached st -> sky_val st' = sky_val st ->
  _inearthcons st' = _inearthcons st -> earth_val st' = earth_val st.
Proof.
  intros H Hs Hc. unfold earth_val. rewrite Hc, Hs.
  destruct (_inearthcons st); [reflexivity|]. by_uncached H.
Qed.

Lemma sun_val_eq st st' :
  uncached st' = uncached st -> sky_val st' = sky_val st ->
  _insuncons st' = _insuncons st -> sun_val st' = sun_val st.
Proof.
  intros H Hs Hc. unfold sun_val. rewrite Hc, Hs.
  destruct (_insuncons st); [reflexivity|]. by_uncached H.
Qed.

Lemma moon_val_eq st st' :
  uncached st' = uncached st -> sky_val st' = sky_val st ->
  _inmooncons st' = _inmooncons st -> moon_val st' = moon_val st.
Proof.
  intros H Hs Hc. unfold moon_val. rewrite Hc, Hs.
  destruct (_inmooncons st); [reflexivity|]. by_uncached H.
Qed.

Lemma ram_val_eq st st' :
  uncached st' = uncached st -> sky_val st' = sky_val st ->
  _inramcons st' = _inramcons st -> ram_val st' = ram_val st.
Proof.
  intros H Hs Hc. unfold ram_val.
  rewrite Hc, Hs, (uncached_ephem _ _ H).
  destruct (eph_velocity (ephem st)), (eph_velvec (ephem st)),
    (_inramcons st);
    try reflexivity.
  f_equal. by_uncached H.
Qed.

Lemma pole_val_eq st st' :
  uncached st' = uncached st -> sky_val st' = sky_val st ->
  _inpolecons st' = _inpolecons st -> pole_val st' = pole_val st.
Proof.
  intros H Hs Hc. unfold pole_val.
  rewrite Hc, Hs, (uncached_ephem _ _ H).
  destruct (eph_velocity (ephem st)), (eph_polevec (ephem st)),
    (_inpolecons st);
    try reflexivity.
  f_equal. by_uncached H.
Qed.

Lemma skycoord_run st :
  exists st', skycoord st = Ok (sky_val st, st') /\ same st st'.
Proof.
  unfold skycoord, sky_val. destruct (_skycoord st) eqn:E.
  - eexists. split; [reflexivity|]. apply same_refl.
  - eexists. split; [reflexivity|].
    assert (Hs : sky_val (set_skycoord (Some (sky_fresh st)) st) = sky_val st)
      by (unfold sky_val at 2; now rewrite E).
    split; [reflexivity|]. split; [exact Hs|].
    repeat split;
      first [ apply earth_val_eq | apply sun_val_eq | apply moon_val_eq
            | apply ram_val_eq | apply pole_val_eq ];
      solve [ reflexivity | exact Hs ].
Qed.

Ltac fill :=
  repeat split;
  try first [ reflexivity
        | assumption
        | apply earth_val_eq; reflexivity
        | apply sun_val_eq; reflexivity
        | apply moon_val_eq; reflexivity
        | apply ram_val_eq; reflexivity
        | apply pole_val_eq; reflexivity ].

Lemma fill_earth st a :
  earth_val st = Ok a -> same st (set_inearthcons (Some a) st).
Proof. intros H. unfold same. fill. now rewrite H. Qed.

Lemma fill_sun st a :
  sun_val st = Ok a -> same st (set_insuncons (Some a) st).
Proof. intros H. unfold same. fill. now rewrite H. Qed.

Lemma fill_moon st a :
  moon_val st = Ok a -> same st (set_inmooncons (Some a) st).
Proof. intros H. unfold same. fill. now rewrite H. Qed.

Lemma fill_ramang st ang : same st (set_ramang ang st).
Proof. unfold same. fill. Qed.

Lemma fill_ram st a :
  ram_val st = Ok (Some a) -> same st (set_inramcons (Some a) st).
Proof.
  intros H. unfold same. fill.
  rewrite H. unfold ram_val in *. cbn.
  destruct (eph_velocity (ephem st)), (eph_velvec (ephem st));
    solve [reflexivity | discriminate].
Qed.

Lemma fill_pole st a :
  pole_val st = Ok (Some a) -> same st (set_inpolecons (Some a) st).
Proof.
  intros H. unfold same. fill.
  rewrite H. unfold pole_val in *. cbn.
  destruct (eph_velocity (ephem st)), (eph_polevec (ephem st));
    solve [reflexivity | discriminate].
Qed.

Lemma inearthcons_run st :
  match earth_val st with
  | Ok a => exists st', inearthcons st = Ok (a, st') /\ same st st'
  | Raise e => inearthcons st = Raise e
  end.
Proof.
  destruct (earth_val st) as [a|e] eqn:Hv; pose proof Hv as Hv0;
    unfold inearthcons; unfold earth_val in Hv;
    destruct (_inearthcons st) eqn:E; try discriminate.
  - injection Hv as <-. eexists; split; [reflexivity | apply same_refl].
  - destruct (skycoord_run st) as (st1 & Hsk & Hs1).
    unfold bind, lift, assign, ret. rewrite Hsk.
    unfold earth_fresh, rbind in Hv.
    destruct (separation_arr _ _); [|discriminate]. rewrite Hv.
    eexists; split; [reflexivity|].
    apply (same_trans _ _ _ Hs1), fill_earth.
    destruct Hs1 as (_ & _ & He & _). now rewrite He.
  - destruct (skycoord_run st) as (st1 & Hsk & Hs1).
    unfold bind, lift, assign, ret. rewrite Hsk.
    unfold earth_fresh, rbind in Hv.
    destruct (separation_arr _ _); [now rewrite Hv | congruence].
Qed.

Lemma insuncons_run st :
  match sun_val st with
  | Ok a => exists st', insuncons st = Ok (a, st') /\ same st st'
  | Raise e => insuncons st = Raise e
  end.
Proof.
  destruct (sun_val st) as [a|e] eqn:Hv; pose proof Hv as Hv0;
    unfold insuncons; unfold sun_val in Hv;
    destruct (_insuncons st) eqn:E; try discriminate.
  - injection Hv as <-. eexists; split; [reflexivity | apply same_refl].
  - destruct (skycoord_run st) as (st1 & Hsk & Hs1).
    unfold bind, lift, assign, ret. rewrite Hsk.
    unfold sun_fresh, rbind in Hv.
    destruct (separation_arr _ _); [|discriminate]. injection Hv as <-.
    eexists; split; [reflexivity|].
    apply (same_trans _ _ _ Hs1), fill_sun.
    destruct Hs1 as (_ & _ & _ & He & _). now rewrite He.
  - destruct (skycoord_run st) as (st1 & Hsk & Hs1).
    unfold bind, lift, assign, ret. rewrite Hsk.
    unfold sun_fresh, rbind in Hv.
    destruct (separation_arr _ _); [discriminate | congruence].
Qed.

Lemma inmooncons_run st :
  match moon_val st with
  | Ok a => exists st', inmooncons st = Ok (a, st') /\ same st st'
  | Raise e => inmooncons st = Raise e
  end.
Proof.
  destruct (moon_val st) as [a|e] eqn:Hv; pose proof Hv as Hv0;
    unfold inmooncons; unfold moon_val in Hv;
    destruct (_inmooncons st) eqn:E; try discriminate.
  - injection Hv as <-. eexists; split; [reflexivity | apply same_refl].
  - destruct (skycoord_run st) as (st1 & Hsk & Hs1).
    unfold bind, lift, assign, ret. rewrite Hsk.
    unfold moon_fresh, rbind in Hv.
    destruct (separation_arr _ _); [|discriminate]. injection Hv as <-.
    eexists; split; [reflexivity|].
    apply (same_trans _ _ _ Hs1), fill_moon.
    destruct Hs1 as (_ & _ & _ & _ & He & _). now rewrite He.
  - destruct (skycoord_run st) as (st1 & Hsk & Hs1).
    unfold bind, lift, assign, ret. rewrite Hsk.
    unfold moon_fresh, rbind in Hv.
    destruct (separation_arr _ _); [discriminate | congruence].
Qed.

Lemma inramcons_run st :
  match ram_val st with
  | Ok a => exists st', inramcons st = Ok (a, st') /\ same st st'
  | Raise e => inramcons st = Raise e
  end.
Proof.
  destruct (ram_val st) as [a|e] eqn:Hv; pose proof Hv as Hv0;
    unfold inramcons; unfold ram_val in Hv;
    destruct (eph_velocity (ephem st)), (eph_velvec (ephem st)) as [velvec|],
      (_inramcons st) eqn:E; try discriminate;
    try (injection Hv as <-; eexists; split; [reflexivity | apply same_refl]).
  - destruct (skycoord_run st) as (st1 & Hsk & Hs1).
    unfold bind, lift, assign, ret. rewrite Hsk.
    unfold ram_fresh, rbind in Hv.
    destruct (separation_arr _ _) as [ang|]; [|discriminate].
    injection Hv as <-.
    eexists; split; [reflexivity|].
    apply (same_trans _ _ _ Hs1).
    apply (same_trans _ _ _ (fill_ramang st1 (Some ang))).
    apply fill_ram.
    destruct Hs1 as (_ & _ & _ & _ & _ & He & _).
    rewrite <- Hv0, <- He. apply ram_val_eq; reflexivity.
  - destruct (skycoord_run st) as (st1 & Hsk & Hs1).
    unfold bind, lift, assign, ret. rewrite Hsk.
    unfold ram_fresh, rbind in Hv.
    destruct (separation_arr _ _); [discriminate | congruence].
Qed.

Lemma inpolecons_run st :
  match pole_val st with
  | Ok a => exists st', inpolecons st = Ok (a, st') /\ same st st'
  | Raise e => inpolecons st = Raise e
  end.
Proof.
  destruct (pole_val st) as [a|e] eqn:Hv; pose proof Hv as Hv0;
    unfold inpolecons; unfold pole_val in Hv;
    destruct (eph_velocity (ephem st)), (eph_polevec (ephem st)) as [polevec|],
      (_inpolecons st) eqn:E; try discriminate;
    try (injection Hv as <-; eexists; split; [reflexivity | apply same_refl]).
  - destruct (skycoord_run st) as (st1 & Hsk & Hs1).
    unfold bind, lift, assign, ret. rewrite Hsk.
    unfold pole_fresh, rbind in Hv. rewrite pole_limit_map.
    destruct (separation_arr (active st (eph_pole _)) _); [|discriminate].
    destruct (separation_arr _ _); [|discriminate].
    destruct (Np.broadcast2 qlt _ _); [|discriminate].
    destruct (Np.broadcast2 qlt _ _); [|discriminate].
    destruct (Np.broadcast2 orb _ _); [|discriminate].
    injection Hv as <-.
    eexists; split; [reflexivity|].
    apply (same_trans _ _ _ Hs1), fill_pole.
    destruct Hs1 as (_ & _ & _ & _ & _ & _ & He). now rewrite He.
  - destruct (skycoord_run st) as (st1 & Hsk & Hs1).
    unfold bind, lift, assign, ret. rewrite Hsk.
    unfold pole_fresh, rbind in Hv. rewrite pole_limit_map.
    destruct (separation_arr (active st (eph_pole _)) _); [|congruence].
    destruct (separation_arr _ _); [|congruence].
    destruct (Np.broadcast2 qlt _ _); [|congruence].
    destruct (Np.broadcast2 qlt _ _); [|congruence].
    destruct (Np.broadcast2 orb _ _); [discriminate|congruence].
Qed.

End Accessors.

(** ** The accumulation in [get] *)

Section Accumulation.

Context {AP : Astropy}.

Lemma bind_ok {A B} (m : M A) (k : A -> M B) st a st' :
  m st = Ok (a, st') -> bind m k st = k a st'.
Proof. intros H. unfold bind. now rewrite H. Qed.

Lemma bind_raise {A B} (m : M A) (k : A -> M B) st e :
  m st = Raise e -> bind m k st = Raise e.
Proof. intros H. unfold bind. now rewrite H. Qed.

Lemma bind_gets {A B} (f : Visibility -> A) (k : A -> M B) st :
  bind (gets f) k st = k (f st) st.
Proof. reflexivity. Qed.

Lemma bind_assign {B} (f : Visibility -> Visibility) (k : unit -> M B) st :
  bind (assign f) k st = k tt (f st).
Proof. reflexivity. Qed.

Lemma akin_refl st : akin st st.
Proof. repeat split. Qed.

Lemma akin_trans st1 st2 st3 : akin st1 st2 -> akin st2 st3 -> akin st1 st3.
Proof.
  unfold akin. intros H1 H2.
  repeat match goal with H : _ /\ _ |- _ => destruct H end.
  repeat split; congruence.
Qed.

Lemma same_akin st st' : same st st' -> akin st st'.
Proof.
  intros (H & Hrest). split; [|exact Hrest].
  change (scrub (uncached st') = scrub (uncached st)). now rewrite H.
Qed.

(** The accessors read neither the combined array nor the SAA array. *)
Ltac by_scrub H :=
  match goal with
  | |- ?f ?st' = ?f ?st => change (f (scrub st') = f (scrub st)); now rewrite H
  end.

Lemma scrub_akin st st' : scrub st' = scrub st -> akin st st'.
Proof. intros H. repeat split; by_scrub H. Qed.

Lemma akin_field {A} (f : Visibility -> A) st st' :
  (forall s, f (uncached (scrub s)) = f s) ->
  akin st st' -> f st' = f st.
Proof.
  intros Hf (H & _). rewrite <- (Hf st'), <- (Hf st). now rewrite H.
Qed.

Lemma same_inconstraint st st' :
  same st st' -> inconstraint st' = inconstraint st /\ saa st' = saa st.
Proof.
  intros (H & _). split.
  - change (inconstraint (uncached st') = inconstraint (uncached st)).
    now rewrite H.
  - change (saa (uncached st') = saa (uncached st)). now rewrite H.
Qed.

Lemma contents_length st a :
  view_ok st a ->
  match a with
  | Owned l => length (contents st a) = length l
  | SaaView _ n => length (contents st a) = n
  end.
Proof.
  destruct a as [l|off n]; simpl; [reflexivity|].
  intros H. rewrite slice_length. lia.
Qed.

Lemma iadd_run st a src :
  inconstraint st = Some a -> view_ok st a ->
  length src = length (contents st a) ->
  exists st' a',
    iadd_inconstraint src st = Ok (tt, st') /\
    scrub st' = scrub st /\
    inconstraint st' = Some a' /\
    contents st' a' = Np.zip_with orb (contents st a) src /\
    view_ok st' a' /\
    ((exists l, a = Owned l) -> saa st' = saa st /\ exists l', a' = Owned l').
Proof.
  intros Ha Hv Hl. unfold iadd_inconstraint.
  rewrite Ha, (iadd_same_length _ _ Hl).
  assert (Hz : length (Np.zip_with orb (contents st a) src)
               = length (contents st a))
    by (apply zip_with_length; congruence).
  destruct a as [l|off n]; simpl.
  - do 2 eexists. repeat split. eauto.
  - pose proof (contents_length st (SaaView off n) Hv) as Hn.
    simpl in Hv, Hn, Hz.
    do 2 eexists. split; [reflexivity|]. split; [reflexivity|].
    split; [reflexivity|]. simpl. split; [|split].
    + rewrite <- Hn at 2. rewrite <- Hz. apply slice_splice. lia.
    + rewrite splice_length; lia.
    + intros (l & [=]).
Qed.

Lemma accumulating_same st0 st st' acc :
  accumulating st0 st acc -> same st st' -> accumulating st0 st' acc.
Proof.
  intros (Hk & a & Ha & Hc & Hv & Ho) Hs.
  destruct (same_inconstraint _ _ Hs) as (Hi & Hsaa).
  split; [exact (akin_trans _ _ _ Hk (same_akin _ _ Hs))|].
  exists a. rewrite Hi, Hsaa. split; [exact Ha|].
  destruct a; simpl in *; rewrite ?Hsaa; auto.
Qed.

Lemma accumulating_iadd st0 st acc src :
  accumulating st0 st acc -> length src = length acc ->
  exists st',
    iadd_inconstraint src st = Ok (tt, st') /\
    accumulating st0 st' (Np.zip_with orb acc src).
Proof.
  intros (Hk & a & Ha & Hc & Hv & Ho) Hl. subst acc.
  destruct (iadd_run st a src Ha Hv Hl)
    as (st' & a' & Hr & Hs & Ha' & Hc' & Hv' & Ho').
  exists st'. split; [exact Hr|]. split.
  - exact (akin_trans _ _ _ Hk (scrub_akin _ _ Hs)).
  - exists a'. repeat (split; [assumption|]).
    intros Hf. destruct (Ho Hf) as (Hsaa & Hl0).
    destruct (Ho' Hl0) as (Hsaa' & Hl'). split; [congruence|exact Hl'].
Qed.

Lemma accumulate_step st0 st acc flag (m : M (list bool)) val :
  accumulating st0 st acc ->
  (exists s', m st = Ok (val, s') /\ same st s') ->
  length val = length acc ->
  exists st',
    when flag (a <- m ;; iadd_inconstraint a) st = Ok (tt, st') /\
    accumulating st0 st' (accumulate flag (Some val) acc).
Proof.
  intros Hacc (s' & Hm & Hs) Hl. destruct flag; simpl.
  - destruct (accumulating_iadd _ _ _ _ (accumulating_same _ _ _ _ Hacc Hs) Hl)
      as (st' & Hr & Hacc').
    exists st'. split; [|exact Hacc'].
    now rewrite (bind_ok _ _ _ _ _ Hm).
  - exists st. now split.
Qed.

Lemma accumulate_step_opt st0 st acc flag (m : M (option (list bool))) val :
  accumulating st0 st acc ->
  (forall s, akin st0 s -> exists s', m s = Ok (val, s') /\ same s s') ->
  (forall a, val = Some a -> length a = length acc) ->
  exists st',
    when flag
      (p <- m ;;
       match p with
       | None => ret tt
       | Some _ =>
           p' <- m ;;
           match p' with
           | Some a => iadd_inconstraint a
           | None => lift (Raise TypeError)
           end
       end) st = Ok (tt, st') /\
    accumulating st0 st' (accumulate flag val acc).
Proof.
  intros Hacc Hm Hl. destruct flag; simpl; [|exists st; now split].
  destruct (Hm st (proj1 Hacc)) as (s1 & Hm1 & Hs1).
  pose proof (accumulating_same _ _ _ _ Hacc Hs1) as Hacc1.
  rewrite (bind_ok _ _ _ _ _ Hm1). destruct val as [a|].
  - destruct (Hm s1 (proj1 Hacc1)) as (s2 & Hm2 & Hs2).
    pose proof (accumulating_same _ _ _ _ Hacc1 Hs2) as Hacc2.
    rewrite (bind_ok _ _ _ _ _ Hm2).
    exact (accumulating_iadd _ _ _ _ Hacc2 (Hl a eq_refl)).
  - exists s1. now split.
Qed.

End Accumulation.

(** ** [get] *)

Section Get.

Context {AP : Astropy}.
Context {CO : Collaborators}.

Lemma accumulate_length flag arr acc :
  (forall a, arr = Some a -> length a = length acc) ->
  length (accumulate flag arr acc) = length acc.
Proof.
  intros H. unfold accumulate. destruct flag, arr as [a|]; try reflexivity.
  apply zip_with_length. symmetry. now apply H.
Qed.

Lemma inearthcons_akin st0 st a :
  akin st0 st -> earth_val st0 = Ok a ->
  exists s', inearthcons st = Ok (a, s') /\ same st s'.
Proof.
  intros (_ & _ & He & _) Hv. pose proof (inearthcons_run st) as H.
  now rewrite He, Hv in H.
Qed.

Lemma insuncons_akin st0 st a :
  akin st0 st -> sun_val st0 = Ok a ->
  exists s', insuncons st = Ok (a, s') /\ same st s'.
Proof.
  intros (_ & _ & _ & He & _) Hv. pose proof (insuncons_run st) as H.
  now rewrite He, Hv in H.
Qed.

Lemma inmooncons_akin st0 st a :
  akin st0 st -> moon_val st0 = Ok a ->
  exists s', inmooncons st = Ok (a, s') /\ same st s'.
Proof.
  intros (_ & _ & _ & _ & He & _) Hv. pose proof (inmooncons_run st) as H.
  now rewrite He, Hv in H.
Qed.

Lemma inramcons_akin st0 st a :
  akin st0 st -> ram_val st0 = Ok a ->
  exists s', inramcons st = Ok (a, s') /\ same st s'.
Proof.
  intros (_ & _ & _ & _ & _ & He & _) Hv. pose proof (inramcons_run st) as H.
  now rewrite He, Hv in H.
Qed.

Lemma inpolecons_akin st0 st a :
  akin st0 st -> pole_val st0 = Ok a ->
  exists s', inpolecons st = Ok (a, s') /\ same st s'.
Proof.
  intros (_ & _ & _ & _ & _ & _ & He) Hv. pose proof (inpolecons_run st) as H.
  now rewrite He, Hv in H.
Qed.

Lemma saa_step st :
  exists st',
    when (saa_cons st)
      (a <- gets insaacons ;; assign (set_inconstraint (Some a)))
      (set_inconstraint (Some (Owned (repeat false (len st)))) st)
    = Ok (tt, st') /\
    accumulating st st'
      (if saa_cons st then saa_val st else repeat false (len st)).
Proof.
  destruct (saa_cons st) eqn:E; simpl.
  - eexists. split; [reflexivity|]. split.
    + now apply scrub_akin.
    + eexists. split; [reflexivity|]. split; [|split].
      * apply slice_clip.
      * simpl. unfold active. rewrite slice_length. lia.
      * intros H. congruence.
  - eexists. split; [reflexivity|]. split.
    + now apply scrub_akin.
    + eexists. split; [reflexivity|]. repeat split. eauto.
Qed.

Lemma get_rejected st :
  accepted st = false -> get st = Ok (RFalse, prepared st).
Proof.
  intros H. unfold get.
  rewrite bind_gets, !bind_assign, bind_gets, bind_assign.
  fold (reset st). fold (accepted st). now rewrite H.
Qed.

Lemma get_run st earth moon sun pole ram :
  accepted st = true ->
  earth_val (prepared st) = Ok earth ->
  moon_val (prepared st) = Ok moon ->
  sun_val (prepared st) = Ok sun ->
  pole_val (prepared st) = Ok pole ->
  ram_val (prepared st) = Ok ram ->
  length (saa_val (prepared st)) = len (prepared st) ->
  length earth = len (prepared st) ->
  length moon = len (prepared st) ->
  length sun = len (prepared st) ->
  (forall a, pole = Some a -> length a = len (prepared st)) ->
  (forall a, ram = Some a -> length a = len (prepared st)) ->
  exists st' a,
    get st = Ok (RNone, finish st' a) /\
    akin (prepared st) st' /\
    inconstraint st' = Some a /\
    contents st' a
    = combined (prepared st) (saa_val (prepared st)) earth moon sun pole ram /\
    view_ok st' a /\
    (saa_cons st = false -> saa st' = saa st).
Proof.
  intros Hok He Hm Hs Hp Hr Lsaa Le Lm Ls Lp Lr.
  unfold get.
  rewrite bind_gets, !bind_assign, bind_gets, bind_assign.
  fold (reset st). fold (accepted st). fold (prepared st).
  rewrite Hok. cbn [negb]. cbv iota.
  set (st0 := prepared st) in *.
  rewrite bind_gets, bind_assign, bind_gets.
  destruct (saa_step st0) as (s1 & R1 & A1).
  change (saa_cons (set_inconstraint (Some (Owned (repeat false (len st0))))
                      st0)) with (saa_cons st0).
  rewrite (bind_ok _ _ _ _ _ R1).
  set (c1 := if saa_cons st0 then saa_val st0 else repeat false (len st0))
    in *.
  assert (L1 : length c1 = len st0)
    by (subst c1; destruct (saa_cons st0);
        [exact Lsaa | apply repeat_length]).
  (* Earth *)
  rewrite bind_gets.
  rewrite (akin_field earth_cons _ _ (fun s => eq_refl) (proj1 A1)).
  destruct (accumulate_step st0 s1 c1 (earth_cons st0) inearthcons earth A1
              (inearthcons_akin _ _ _ (proj1 A1) He) ltac:(congruence))
    as (s2 & R2 & A2).
  rewrite (bind_ok _ _ _ _ _ R2).
  set (c2 := accumulate (earth_cons st0) (Some earth) c1) in *.
  assert (L2 : length c2 = len st0).
  { subst c2. rewrite accumulate_length; [exact L1|].
    intros a [= <-]. congruence. }
  (* Moon *)
  rewrite bind_gets.
  rewrite (akin_field moon_cons _ _ (fun s => eq_refl) (proj1 A2)).
  destruct (accumulate_step st0 s2 c2 (moon_cons st0) inmooncons moon A2
              (inmooncons_akin _ _ _ (proj1 A2) Hm) ltac:(congruence))
    as (s3 & R3 & A3).
  rewrite (bind_ok _ _ _ _ _ R3).
  set (c3 := accumulate (moon_cons st0) (Some moon) c2) in *.
  assert (L3 : length c3 = len st0).
  { subst c3. rewrite accumulate_length; [exact L2|].
    intros a [= <-]. congruence. }
  (* Sun *)
  rewrite bind_gets.
  rewrite (akin_field sun_cons _ _ (fun s => eq_refl) (proj1 A3)).
  destruct (accumulate_step st0 s3 c3 (sun_cons st0) insuncons sun A3
              (insuncons_akin _ _ _ (proj1 A3) Hs) ltac:(congruence))
    as (s4 & R4 & A4).
  rewrite (bind_ok _ _ _ _ _ R4).
  set (c4 := accumulate (sun_cons st0) (Some sun) c3) in *.
  assert (L4 : length c4 = len st0).
  { subst c4. rewrite accumulate_length; [exact L3|].
    intros a [= <-]. congruence. }
  (* Pole *)
  rewrite bind_gets.
  rewrite (akin_field pole_cons _ _ (fun s => eq_refl) (proj1 A4)).
  destruct (accumulate_step_opt st0 s4 c4 (pole_cons st0) inpolecons pole A4
              (fun s Hk => inpolecons_akin _ _ _ Hk Hp)
              ltac:(intros a Ha; rewrite (Lp a Ha); congruence))
    as (s5 & R5 & A5).
  rewrite (bind_ok _ _ _ _ _ R5).
  set (c5 := accumulate (pole_cons st0) pole c4) in *.
  assert (L5 : length c5 = len st0).
  { subst c5. rewrite accumulate_length; [exact L4|].
    intros a Ha. rewrite (Lp a Ha). congruence. }
  (* Ram *)
  rewrite bind_gets.
  rewrite (akin_field ram_cons _ _ (fun s => eq_refl) (proj1 A5)).
  destruct (accumulate_step_opt st0 s5 c5 (ram_cons st0) inramcons ram A5
              (fun s Hk => inramcons_akin _ _ _ Hk Hr)
              ltac:(intros a Ha; rewrite (Lr a Ha); congruence))
    as (s6 & R6 & A6).
  rewrite (bind_ok _ _ _ _ _ R6).
  (* Windows *)
  destruct A6 as (Hk & a & Ha & Hc & Hv & Ho).
  exists s6, a. rewrite bind_gets, Ha, bind_assign, bind_gets.
  split;
    [|split; [exact Hk|split; [reflexivity|split; [exact Hc|split;
        [exact Hv|intros Hf; exact (proj1 (Ho Hf))]]]]].
  unfold finish.
  now destruct (length _ =? 0).
Qed.

End Get.

(** ** Running with the ram and pole flags set or cleared *)

Section Toggle.

Context {AP : Astropy}.
Context {CO : Collaborators}.
Variables r p : bool.

Ltac norm :=
  unfold toggled, active, ephstart, ephstop, with_extra in *; cbn in *.

Lemma skycoord_toggled s :
  skycoord (toggled r p s)
  = match skycoord s with
    | Ok (a, s') => Ok (a, toggled r p s')
    | Raise e => Raise e
    end.
Proof.
  unfold skycoord. norm. now destruct (_skycoord s).
Qed.






















Hypothesis validate_get_flags :
  forall s, validate_get (toggled r p s) = validate_get s.

Hypothesis make_windows_flags :
  forall s l, make_windows (toggled r p s) l = make_windows s l.




End Toggle.

(** ** [constraint] *)

Section Constraint.

Context {AP : Astropy}.

Lemma bind_lift {A B} (r : result A) (k : A -> M B) st :
  bind (lift r) k st = match r with
                       | Ok a => k a st
                       | Raise e => Raise e
                       end.
Proof. unfold bind, lift. now destruct r. Qed.

Lemma contents_insaacons st : contents st (insaacons st) = saa_val st.
Proof. apply slice_clip. Qed.

Lemma same_saa_val st st' : same st st' -> saa_val st' = saa_val st.
Proof.
  intros (H & _).
  change (saa_val (uncached st') = saa_val (uncached st)). now rewrite H.
Qed.

Lemma value_ret {A} (a : A) st : value (ret a st) = Ok a.
Proof. reflexivity. Qed.

Lemma constraint_classify st index :
  value (constraint index st) = classify st index.
Proof.
  unfold constraint, classify.
  rewrite bind_gets, bind_lift.
  destruct (Np.getitem (timestamp st) index) as [t|e]; [|reflexivity].
  cbn [rbind]. rewrite !bind_gets.
  destruct ((t <=? begin st) || (t >=? end_ st))%Z; [reflexivity|].
  rewrite bind_gets.
  destruct (inconstraint st) as [a|]; [|reflexivity].
  rewrite bind_gets, bind_lift.
  destruct (Np.getitem (contents st a) index) as [[|]|e];
    [|reflexivity|reflexivity].
  cbn [rbind].
  (* Sun *)
  pose proof (insuncons_run st) as R1.
  destruct (sun_val st) as [s|e]; [|now rewrite (bind_raise _ _ _ _ R1)].
  destruct R1 as (s1 & R1 & S1). rewrite (bind_ok _ _ _ _ _ R1), bind_lift.
  cbn [rbind].
  destruct (Np.getitem s index) as [[|]|e]; [reflexivity| |reflexivity].
  (* Moon *)
  pose proof (inmooncons_run s1) as R2.
  destruct S1 as (U1 & K1 & E1 & N1 & M1 & _).
  rewrite M1 in R2.
  destruct (moon_val st) as [m|e]; [|now rewrite (bind_raise _ _ _ _ R2)].
  destruct R2 as (s2 & R2 & S2). rewrite (bind_ok _ _ _ _ _ R2), bind_lift.
  cbn [rbind].
  destruct (Np.getitem m index) as [[|]|e]; [reflexivity| |reflexivity].
  (* Earth *)
  pose proof (inearthcons_run s2) as R3.
  pose proof S2 as (U2 & K2 & E2 & _).
  rewrite E2, E1 in R3.
  destruct (earth_val st) as [ea|e]; [|now rewrite (bind_raise _ _ _ _ R3)].
  destruct R3 as (s3 & R3 & S3). rewrite (bind_ok _ _ _ _ _ R3), bind_lift.
  cbn [rbind].
  destruct (Np.getitem ea index) as [[|]|e]; [reflexivity| |reflexivity].
  (* SAA *)
  rewrite bind_gets, bind_lift, contents_insaacons.
  rewrite (same_saa_val _ _ S3), (same_saa_val _ _ S2).
  assert (Hsaa : saa_val s1 = saa_val st).
  { change (saa_val (uncached s1) = saa_val (uncached st)). now rewrite U1. }
  rewrite Hsaa.
  destruct (Np.getitem (saa_val st) index) as [[|]|e]; reflexivity.
Qed.

End Constraint.

(** ** Arrays on the grid *)

Section Grid.

Context {AP : Astropy}.

Lemma nth_error_zip_with {A B C} (f : A -> B -> C) xs ys i x y :
  nth_error xs i = Some x -> nth_error ys i = Some y ->
  nth_error (Np.zip_with f xs ys) i = Some (f x y).
Proof.
  revert ys i. induction xs as [|x0 xs IH]; intros [|y0 ys] [|i];
    simpl; try discriminate.
  - now intros [= ->] [= ->].
  - apply IH.
Qed.

Lemma broadcast2_nth {A B C} (f : A -> B -> C) xs ys zs i x y :
  Np.broadcast2 f xs ys = Ok zs ->
  nth_error xs i = Some x -> nth_error ys i = Some y ->
  nth_error zs i = Some (f x y).
Proof.
  unfold Np.broadcast2. destruct (length xs =? length ys).
  - intros [= <-]. apply nth_error_zip_with.
  - destruct xs as [|x0 [|x1 xs]].
    + now destruct i.
    + intros [= <-] Hx Hy. destruct i as [|i]; [|now destruct i].
      injection Hx as ->. now apply map_nth_error.
    + destruct ys as [|y0 [|y1 ys]]; try discriminate.
      intros [= <-] Hx Hy. destruct i as [|i]; [|now destruct i].
      injection Hy as ->. now injection Hx as ->.
Qed.

Lemma broadcast2_same_length {A B C} (f : A -> B -> C) xs ys n :
  length xs = n -> length ys = n ->
  exists zs, Np.broadcast2 f xs ys = Ok zs /\ length zs = n.
Proof.
  intros Hx Hy. unfold Np.broadcast2.
  rewrite Hx, Hy, Nat.eqb_refl. eexists. split; [reflexivity|].
  rewrite zip_with_length; congruence.
Qed.

Lemma separation_arr_nth cs sc ang i c tgt :
  separation_arr cs sc = Ok ang ->
  nth_error cs i = Some c -> target_at sc i = Some tgt ->
  nth_error ang i = Some (separation c tgt).
Proof.
  destruct sc as [c0|l]; simpl.
  - intros [= <-] Hc [= <-].
    now apply (map_nth_error (fun x => separation x c0)).
  - apply broadcast2_nth.
Qed.

Lemma separation_arr_length cs sc n :
  length cs = n -> coord_fits sc n ->
  exists ang, separation_arr cs sc = Ok ang /\ length ang = n.
Proof.
  intros Hc Hs. destruct sc as [c0|l]; simpl in *.
  - eexists. split; [reflexivity|]. now rewrite length_map.
  - now apply broadcast2_same_length.
Qed.

Lemma active_length {A B} st (l : list A) (l' : list B) :
  length l = length l' -> length (active st l) = length (active st l').
Proof.
  intros H. unfold active. now rewrite !slice_length, H.
Qed.

Lemma sky_val_fits st : sky_fits st = true -> coord_fits (sky_val st) (len st).
Proof.
  unfold sky_fits, sky_val, sky_fresh.
  destruct (_skycoord st) as [[c|l]|]; simpl; trivial.
  - now intros H%Nat.eqb_eq.
  - intros _. destruct (eph_apparent (ephem st)); simpl; trivial.
    now rewrite length_map.
Qed.

Lemma on_grid_lengths st :
  on_grid st = true ->
  length (active st (eph_earth (ephem st))) = len st /\
  length (active st (eph_sun (ephem st))) = len st /\
  length (active st (eph_moon (ephem st))) = len st /\
  length (active st (eph_pole (ephem st))) = len st /\
  length (active st (eph_earthsize (ephem st))) = len st /\
  (forall v, eph_velvec (ephem st) = Some v -> length (active st v) = len st)
  /\
  (forall v, eph_polevec (ephem st) = Some v -> length (active st v) = len st)
  /\
  length (saa_val st) = len st.
Proof.
  unfold on_grid, len, timestamp, saa_val. intros H.
  repeat match type of H with
         | _ && _ = true => apply andb_true_iff in H; destruct H as [H ?]
         end.
  repeat match goal with
         | H : (_ =? _) = true |- _ => apply Nat.eqb_eq in H
         end.
  repeat split; try (now apply active_length).
  - intros v Hv. rewrite Hv in *. apply active_length. now apply Nat.eqb_eq.
  - intros v Hv. rewrite Hv in *. apply active_length. now apply Nat.eqb_eq.
Qed.

Lemma earth_fresh_fits st sc :
  on_grid st = true -> coord_fits sc (len st) ->
  exists a, earth_fresh st sc = Ok a /\ length a = len st.
Proof.
  intros Hg Hs. destruct (on_grid_lengths st Hg) as (He & _ & _ & _ & Hz & _).
  unfold earth_fresh.
  destruct (separation_arr_length _ sc _ He Hs) as (ang & -> & Ha).
  cbn [rbind]. apply broadcast2_same_length; [exact Ha|].
  now rewrite length_map.
Qed.

Lemma sun_fresh_fits st sc :
  on_grid st = true -> coord_fits sc (len st) ->
  exists a, sun_fresh st sc = Ok a /\ length a = len st.
Proof.
  intros Hg Hs. destruct (on_grid_lengths st Hg) as (_ & He & _).
  unfold sun_fresh.
  destruct (separation_arr_length _ sc _ He Hs) as (ang & -> & Ha).
  cbn [rbind]. eexists. split; [reflexivity|]. now rewrite length_map.
Qed.

Lemma moon_fresh_fits st sc :
  on_grid st = true -> coord_fits sc (len st) ->
  exists a, moon_fresh st sc = Ok a /\ length a = len st.
Proof.
  intros Hg Hs. destruct (on_grid_lengths st Hg) as (_ & _ & He & _).
  unfold moon_fresh.
  destruct (separation_arr_length _ sc _ He Hs) as (ang & -> & Ha).
  cbn [rbind]. eexists. split; [reflexivity|]. now rewrite length_map.
Qed.

Lemma ram_fresh_fits st v sc :
  on_grid st = true -> eph_velvec (ephem st) = Some v ->
  coord_fits sc (len st) ->
  exists a, ram_fresh st v sc = Ok a /\ length a = len st.
Proof.
  intros Hg Hv Hs.
  destruct (on_grid_lengths st Hg) as (_ & _ & _ & _ & _ & He & _).
  specialize (He v Hv). unfold ram_fresh.
  assert (Hm : length (map cartesian (active st v)) = len st)
    by now rewrite length_map.
  destruct (separation_arr_length _ sc _ Hm Hs) as (ang & -> & Ha).
  cbn [rbind]. eexists. split; [reflexivity|]. now rewrite length_map.
Qed.

Lemma pole_fresh_fits st v sc :
  on_grid st = true -> eph_polevec (ephem st) = Some v ->
  coord_fits sc (len st) ->
  exists a, pole_fresh st v sc = Ok a /\ length a = len st.
Proof.
  intros Hg Hv Hs.
  destruct (on_grid_lengths st Hg) as (_ & _ & _ & Hn & Hz & _ & He & _).
  specialize (He v Hv). unfold pole_fresh.
  assert (Hm : length (map (fun x => cartesian (vneg x)) (active st v))
               = len st) by now rewrite length_map.
  assert (Hl : length (map (pole_limit st)
                           (active st (eph_earthsize (ephem st)))) = len st)
    by now rewrite length_map.
  destruct (separation_arr_length _ sc _ Hn Hs) as (north & -> & Hnl).
  destruct (separation_arr_length _ sc _ Hm Hs) as (south & -> & Hsl).
  cbn [rbind].
  destruct (broadcast2_same_length qlt south _ _ Hsl Hl) as (bs & -> & Hbs).
  destruct (broadcast2_same_length qlt north _ _ Hnl Hl) as (bn & -> & Hbn).
  cbn [rbind]. now apply broadcast2_same_length.
Qed.

(** A query nobody has read yet, over providers whose arrays follow the grid,
    is aligned when [get] evaluates its constraints. *)
Lemma fresh_on_grid_aligned st :
  on_grid st = true -> fresh st = true -> aligned st = true.
Proof.
  intros Hg Hf. unfold fresh in Hf.
  repeat match type of Hf with
         | _ && _ = true => apply andb_true_iff in Hf; destruct Hf as [Hf ?]
         end.
  repeat match goal with
         | H : unset ?o = true |- _ => destruct o eqn:?; [discriminate H|clear H]
         end.
  assert (Hs : coord_fits (sky_val st) (len st)).
  { apply sky_val_fits. unfold sky_fits.
    now match goal with H : _skycoord st = None |- _ => rewrite H end. }
  destruct (on_grid_lengths st Hg) as (_ & _ & _ & _ & _ & _ & _ & Hsaa).
  unfold aligned, earth_val, moon_val, sun_val, pole_val, ram_val.
  repeat match goal with H : _ st = None |- _ => rewrite H; clear H end.
  destruct (earth_fresh_fits st _ Hg Hs) as (a1 & -> & L1).
  destruct (moon_fresh_fits st _ Hg Hs) as (a2 & -> & L2).
  destruct (sun_fresh_fits st _ Hg Hs) as (a3 & -> & L3).
  cbn [fits]. rewrite Hsaa, L1, L2, L3, !Nat.eqb_refl. cbn [andb].
  assert (Hp : fits_opt (len st)
                 match eph_velocity (ephem st), eph_polevec (ephem st) with
                 | true, Some polevec =>
                     rbind (pole_fresh st polevec (sky_val st))
                           (fun a => Ok (Some a))
                 | _, _ => Ok None
                 end = true).
  { destruct (eph_velocity (ephem st)); [|reflexivity].
    destruct (eph_polevec (ephem st)) as [v|] eqn:Ev; [|reflexivity].
    destruct (pole_fresh_fits st v _ Hg Ev Hs) as (a & -> & L).
    cbn. now rewrite L, Nat.eqb_refl. }
  assert (Hr : fits_opt (len st)
                 match eph_velocity (ephem st), eph_velvec (ephem st) with
                 | true, Some velvec =>
                     rbind (ram_fresh st velvec (sky_val st))
                           (fun a => Ok (Some a))
                 | _, _ => Ok None
                 end = true).
  { destruct (eph_velocity (ephem st)); [|reflexivity].
    destruct (eph_velvec (ephem st)) as [v|] eqn:Ev; [|reflexivity].
    destruct (ram_fresh_fits st v _ Hg Ev Hs) as (a & -> & L).
    cbn. now rewrite L, Nat.eqb_refl. }
  now rewrite Hp, Hr.
Qed.

End Grid.

(** * The statements of the specification *)

Section Classifier.

Context {AP : Astropy}.

Ltac cases :=
  unfold rbind, Np.getitem in *;
  repeat match goal with
         | |- context [match ?x with _ => _ end] => destruct x eqn:?
         | |- context [if ?x then _ else _] => destruct x eqn:?
         end.

(** C3, as amended.  For a valid index [i] into the active slice, whose
    timestamp is [t], [constraint] answers with the sentinel ["Window"] if and
    only if [t] is at or before the begin time, or at or after the end time of
    the query: the two boundary samples are outside the window too. *)
Theorem window_sentinel_iff st i t :
  nth_error (timestamp st) i = Some t ->
  value (constraint i st) = Ok "Window"%string
  <-> (t <= begin st \/ t >= end_ st)%Z.
Proof.
  intros Ht. rewrite constraint_classify. unfold classify, Np.getitem.
  rewrite Ht. cbn [rbind].
  destruct ((t <=? begin st) || (t >=? end_ st))%Z eqn:E.
  - split; [|reflexivity]. intros _.
    apply orb_true_iff in E. lia.
  - split.
    + cases; discriminate.
    + intros H. apply orb_false_iff in E. lia.
Qed.


(** For an index [i] inside the query window at which the combined array is
    true and the Sun, Moon, Earth and SAA arrays are all false, the answer is
    ["Unknown"]; and whatever the state and the index, the answer is one of
    seven labels, none of which names the pole or the ram constraint.  The
    first part is silent on a state in which the combined array is the view
    of the provider's SAA array: there the two arrays are one, and its
    hypotheses exclude each other. *)
Theorem pole_and_ram_are_unknown st i t a s m ea :
  nth_error (timestamp st) i = Some t ->
  (begin st < t < end_ st)%Z ->
  inconstraint st = Some a ->
  nth_error (contents st a) i = Some true ->
  sun_val st = Ok s -> nth_error s i = Some false ->
  moon_val st = Ok m -> nth_error m i = Some false ->
  earth_val st = Ok ea -> nth_error ea i = Some false ->
  nth_error (saa_val st) i = Some false ->
  value (constraint i st) = Ok "Unknown"%string /\
  forall st' j label,
    value (constraint j st') = Ok label ->
    In label ["Window"; "None"; "Sun"; "Moon"; "Earth"; "SAA"; "Unknown"]%string.
Proof.
  intros Ht Hin Ha Hb Hs Hsun Hm Hmoon He Hearth Hsaa. split.
  - rewrite constraint_classify. unfold classify, Np.getitem.
    rewrite Ht. cbn [rbind].
    replace ((t <=? begin st) || (t >=? end_ st))%Z with false
      by (symmetry; apply orb_false_iff; lia).
    rewrite Ha, Hb, Hs, Hm, He. cbn [rbind].
    now rewrite Hsun, Hmoon, Hearth, Hsaa.
  - intros st' j label. rewrite constraint_classify. unfold classify.
    cases; intros [= <-]; simpl; tauto.
Qed.

(** In a state in which the combined array is the view of the provider's SAA
    array, as [get] leaves it with the SAA constraint enabled, the SAA array
    reads true wherever the combined array does: no index is answered
    ["Unknown"], whichever constraint blocked the sample. *)
Lemma view_state_never_unknown st i :
  inconstraint st = Some (insaacons st) ->
  value (constraint i st) <> Ok "Unknown"%string.
Proof.
  intros H. rewrite constraint_classify. unfold classify.
  rewrite H, contents_insaacons.
  cases; discriminate.
Qed.

(** C9.  [visible] answers true exactly for the times that lie in the closed
    interval of some window of the list that [get] left in [entries]. *)
Theorem visible_iff_in_window st t :
  visible st t = true
  <-> exists win, In win (entries st) /\ (fst win <= t <= snd win)%Z.
Proof.
  unfold visible. induction (entries st) as [|w ws IH]; simpl.
  - split; [discriminate | intros (win & [] & _)].
  - destruct ((t >=? fst w) && (t <=? snd w))%Z eqn:E.
    + split; [|reflexivity]. intros _. exists w.
      apply andb_true_iff in E. split; [now left | lia].
    + rewrite IH. apply andb_false_iff in E. split.
      * intros (win & Hin & Hr). exists win. split; [now right | exact Hr].
      * intros (win & [<- | Hin] & Hr); [lia | now exists win].
Qed.

End Classifier.

Section Caching.

Context {AP : Astropy}.

Lemma skycoord_idempotent : idempotent skycoord.
Proof.
  intros st v st1. unfold skycoord.
  destruct (_skycoord st) eqn:E; intros [= <- <-].
  - now rewrite E.
  - reflexivity.
Qed.

(** After the target coordinates have been read, the ephemeris is what it
    was. *)
Lemma skycoord_ephem st sc st1 :
  skycoord st = Ok (sc, st1) -> ephem st1 = ephem st.
Proof.
  unfold skycoord. now destruct (_skycoord st); intros [= <- <-].
Qed.

Lemma inearthcons_idempotent : idempotent inearthcons.
Proof.
  intros st v st1. unfold inearthcons at 1.
  destruct (_inearthcons st) eqn:E.
  - intros [= <- <-]. unfold inearthcons. now rewrite E.
  - unfold bind, lift, assign, ret.
    destruct (skycoord st) as [[sc s']|]; [|discriminate].
    destruct (separation_arr _ _); [|discriminate].
    destruct (Np.broadcast2 _ _ _); [|discriminate].
    now intros [= <- <-].
Qed.

Lemma insuncons_idempotent : idempotent insuncons.
Proof.
  intros st v st1. unfold insuncons at 1.
  destruct (_insuncons st) eqn:E.
  - intros [= <- <-]. unfold insuncons. now rewrite E.
  - unfold bind, lift, assign, ret.
    destruct (skycoord st) as [[sc s']|]; [|discriminate].
    destruct (separation_arr _ _); [|discriminate].
    now intros [= <- <-].
Qed.

Lemma inmooncons_idempotent : idempotent inmooncons.
Proof.
  intros st v st1. unfold inmooncons at 1.
  destruct (_inmooncons st) eqn:E.
  - intros [= <- <-]. unfold inmooncons. now rewrite E.
  - unfold bind, lift, assign, ret.
    destruct (skycoord st) as [[sc s']|]; [|discriminate].
    destruct (separation_arr _ _); [|discriminate].
    now intros [= <- <-].
Qed.

Lemma inramcons_idempotent : idempotent inramcons.
Proof.
  intros st v st1. unfold inramcons at 1.
  destruct (eph_velocity (ephem st)) eqn:Ev;
    [destruct (eph_velvec (ephem st)) as [velvec|] eqn:Ew|].
  - destruct (_inramcons st) eqn:E.
    + intros [= <- <-]. unfold inramcons. now rewrite Ev, Ew, E.
    + unfold bind, lift, assign, ret.
      destruct (skycoord st) as [[sc s']|] eqn:Es; [|discriminate].
      apply skycoord_ephem in Es.
      destruct (separation_arr _ _); [|discriminate].
      intros [= <- <-]. unfold inramcons.
      change (ephem (set_inramcons _ (set_ramang _ s'))) with (ephem s').
      now rewrite Es, Ev, Ew.
  - intros [= <- <-]. unfold inramcons. now rewrite Ev, Ew.
  - intros [= <- <-]. unfold inramcons. now rewrite Ev.
Qed.

Lemma inpolecons_idempotent : idempotent inpolecons.
Proof.
  intros st v st1. unfold inpolecons at 1.
  destruct (eph_velocity (ephem st)) eqn:Ev;
    [destruct (eph_polevec (ephem st)) as [polevec|] eqn:Ew|].
  - destruct (_inpolecons st) eqn:E.
    + intros [= <- <-]. unfold inpolecons. now rewrite Ev, Ew, E.
    + unfold bind, lift, assign, ret.
      destruct (skycoord st) as [[sc s']|] eqn:Es; [|discriminate].
      apply skycoord_ephem in Es.
      destruct (separation_arr _ _); [|discriminate].
      destruct (separation_arr _ _); [|discriminate].
      destruct (Np.broadcast2 qlt _ _); [|discriminate].
      destruct (Np.broadcast2 qlt _ _); [|discriminate].
      destruct (Np.broadcast2 orb _ _); [|discriminate].
      intros [= <- <-]. unfold inpolecons.
      change (ephem (set_inpolecons _ s')) with (ephem s').
      now rewrite Es, Ev, Ew.
  - intros [= <- <-]. unfold inpolecons. now rewrite Ev, Ew.
  - intros [= <- <-]. unfold inpolecons. now rewrite Ev.
Qed.

(** C7.  Each of the accessors for the Earth, Sun, Moon, ram and pole arrays
    and for the target coordinates is idempotent: once a read has returned a
    value, any further read returns that value and leaves the state of the
    query as it is, so nothing is computed twice. *)
Theorem accessors_idempotent :
  idempotent inearthcons /\ idempotent insuncons /\ idempotent inmooncons /\
  idempotent inramcons /\ idempotent inpolecons /\ idempotent skycoord.
Proof.
  repeat split.
  - apply inearthcons_idempotent.
  - apply insuncons_idempotent.
  - apply inmooncons_idempotent.
  - apply inramcons_idempotent.
  - apply inpolecons_idempotent.
  - apply skycoord_idempotent.
Qed.

End Caching.

Section Query.

Context {AP : Astropy}.
Context {CO : Collaborators}.

Lemma aligned_arrays st :
  aligned st = true ->
  exists earth moon sun pole ram,
    earth_val st = Ok earth /\ moon_val st = Ok moon /\
    sun_val st = Ok sun /\ pole_val st = Ok pole /\ ram_val st = Ok ram /\
    length (saa_val st) = len st /\
    length earth = len st /\ length moon = len st /\ length sun = len st /\
    (forall a, pole = Some a -> length a = len st) /\
    (forall a, ram = Some a -> length a = len st).
Proof.
  unfold aligned. intros H.
  repeat match type of H with
         | _ && _ = true => apply andb_true_iff in H; destruct H as [H ?]
         end.
  destruct (earth_val st) as [earth|]; [|discriminate].
  destruct (moon_val st) as [moon|]; [|discriminate].
  destruct (sun_val st) as [sun|]; [|discriminate].
  destruct (pole_val st) as [pole|]; [|discriminate].
  destruct (ram_val st) as [ram|]; [|discriminate].
  exists earth, moon, sun, pole, ram. cbn in *.
  repeat match goal with
         | H : (_ =? _) = true |- _ => apply Nat.eqb_eq in H
         end.
  repeat split; try assumption.
  - intros a ->. now apply Nat.eqb_eq.
  - intros a ->. now apply Nat.eqb_eq.
Qed.

(** The arrays of a query nobody has read yet, over providers that follow
    the grid, cover the active slice when [get] evaluates them. *)
Lemma fresh_query_aligned st :
  on_grid st = true -> fresh st = true -> aligned (prepared st) = true.
Proof.
  intros Hg Hf. apply fresh_on_grid_aligned; [exact Hg|exact Hf].
Qed.

Lemma nth_accumulate flag arr acc i :
  (forall a, arr = Some a -> length a = length acc) ->
  nth i (accumulate flag arr acc) false
  = nth i acc false || contribution flag arr i.
Proof.
  intros H. unfold accumulate, contribution.
  destruct flag, arr as [a|]; cbn; rewrite ?orb_false_r; try reflexivity.
  apply zip_with_nth_or. symmetry. now apply H.
Qed.

Lemma nth_combined st insaa earth moon sun pole ram i :
  length insaa = len st -> length earth = len st ->
  length moon = len st -> length sun = len st ->
  (forall a, pole = Some a -> length a = len st) ->
  (forall a, ram = Some a -> length a = len st) ->
  length (combined st insaa earth moon sun pole ram) = len st /\
  nth i (combined st insaa earth moon sun pole ram) false
  = contribution (saa_cons st) (Some insaa) i
    || contribution (earth_cons st) (Some earth) i
    || contribution (moon_cons st) (Some moon) i
    || contribution (sun_cons st) (Some sun) i
    || contribution (pole_cons st) pole i
    || contribution (ram_cons st) ram i.
Proof.
  intros Lsaa Le Lm Ls Lp Lr. unfold combined.
  set (c0 := if saa_cons st then insaa else repeat false (len st)).
  assert (L0 : length c0 = len st)
    by (subst c0; destruct (saa_cons st); [exact Lsaa|apply repeat_length]).
  assert (N0 : nth i c0 false = contribution (saa_cons st) (Some insaa) i).
  { subst c0. unfold contribution. destruct (saa_cons st); [reflexivity|].
    apply nth_repeat. }
  set (c1 := accumulate (earth_cons st) (Some earth) c0).
  assert (L1 : length c1 = len st).
  { subst c1. rewrite accumulate_length; [exact L0|].
    intros a [= <-]. congruence. }
  set (c2 := accumulate (moon_cons st) (Some moon) c1).
  assert (L2 : length c2 = len st).
  { subst c2. rewrite accumulate_length; [exact L1|].
    intros a [= <-]. congruence. }
  set (c3 := accumulate (sun_cons st) (Some sun) c2).
  assert (L3 : length c3 = len st).
  { subst c3. rewrite accumulate_length; [exact L2|].
    intros a [= <-]. congruence. }
  set (c4 := accumulate (pole_cons st) pole c3).
  assert (L4 : length c4 = len st).
  { subst c4. rewrite accumulate_length; [exact L3|].
    intros a Ha. rewrite (Lp a Ha). congruence. }
  split.
  - rewrite accumulate_length; [exact L4|].
    intros a Ha. rewrite (Lr a Ha). congruence.
  - rewrite nth_accumulate
      by (intros a Ha; rewrite (Lr a Ha); congruence).
    subst c4. rewrite nth_accumulate
      by (intros a Ha; rewrite (Lp a Ha); congruence).
    subst c3. rewrite nth_accumulate by (intros a [= <-]; congruence).
    subst c2. rewrite nth_accumulate by (intros a [= <-]; congruence).
    subst c1. rewrite nth_accumulate by (intros a [= <-]; congruence).
    now rewrite N0.
Qed.

Lemma finish_combined st a :
  inconstraint (finish st a) = inconstraint st /\
  contents (finish st a) a = contents st a /\
  entries (finish st a) = make_windows st (contents st a).
Proof.
  unfold finish. cbn.
  destruct (length (make_windows st (contents st a)) =? 0);
    now destruct a.
Qed.

(** C1.  After [get] has succeeded on a query whose per-constraint arrays
    cover the active slice, the combined array holds, at every sample, the
    logical or of the contributions of the six constraints, where a
    constraint contributes its array if its flag is set (and, for pole and
    ram, its array is defined) and nothing otherwise.  The arrays themselves
    do not depend on the flags, so that switching a constraint off removes
    its own contribution and changes no other. *)
Theorem combined_is_or_of_enabled st st' :
  aligned (prepared st) = true ->
  get st = Ok (RNone, st') ->
  (exists comb earth moon sun pole ram,
     earth_val (prepared st) = Ok earth /\
     moon_val (prepared st) = Ok moon /\
     sun_val (prepared st) = Ok sun /\
     pole_val (prepared st) = Ok pole /\
     ram_val (prepared st) = Ok ram /\
     option_map (contents st') (inconstraint st') = Some comb /\
     length comb = len st' /\
     forall i,
       nth i comb false
       = contribution (saa_cons st) (Some (saa_val (prepared st))) i
         || contribution (earth_cons st) (Some earth) i
         || contribution (moon_cons st) (Some moon) i
         || contribution (sun_cons st) (Some sun) i
         || contribution (pole_cons st) pole i
         || contribution (ram_cons st) ram i) /\
  (forall c_saa c_earth c_moon c_sun c_pole c_ram,
     let st2 := with_flags c_saa c_earth c_moon c_sun c_pole c_ram st in
     saa_val (prepared st2) = saa_val (prepared st) /\
     earth_val (prepared st2) = earth_val (prepared st) /\
     moon_val (prepared st2) = moon_val (prepared st) /\
     sun_val (prepared st2) = sun_val (prepared st) /\
     pole_val (prepared st2) = pole_val (prepared st) /\
     ram_val (prepared st2) = ram_val (prepared st)).
Proof.
  intros Hal Hget. split; [|intros; repeat split].
  destruct (aligned_arrays _ Hal)
    as (earth & moon & sun & pole & ram & He & Hm & Hs & Hp & Hr
        & Lsaa & Le & Lm & Ls & Lp & Lr).
  assert (Hok : accepted st = true).
  { destruct (accepted st) eqn:E; [reflexivity|].
    rewrite (get_rejected st E) in Hget. discriminate. }
  destruct (get_run st earth moon sun pole ram Hok He Hm Hs Hp Hr
              Lsaa Le Lm Ls Lp Lr) as (stw & a & Hrun & Hk & Ha & Hc & Hv & _).
  rewrite Hrun in Hget. injection Hget as <-.
  destruct (finish_combined stw a) as (Fi & Fc & _).
  destruct (nth_combined (prepared st) _ earth moon sun pole ram 0
              Lsaa Le Lm Ls Lp Lr) as (Lc & _).
  exists (combined (prepared st) (saa_val (prepared st))
            earth moon sun pole ram), earth, moon, sun, pole, ram.
  repeat (split; [assumption|]).
  split; [now rewrite Fi, Ha; cbn; rewrite Fc, Hc|].
  split.
  - rewrite Lc. unfold len. f_equal.
    transitivity (timestamp stw).
    + symmetry. apply (akin_field timestamp _ _ (fun s => eq_refl) Hk).
    + unfold finish. cbn. now destruct (length _ =? 0).
  - intros i.
    now destruct (nth_combined (prepared st) _ earth moon sun pole ram i
                    Lsaa Le Lm Ls Lp Lr) as (_ & ->).
Qed.

(** C8.  When validation passes on a query whose arrays cover the active
    slice, [get] completes and returns [None], not [False].  If it found no
    window, the status object then carries the warning, added to what
    validation left there; if it found one, the status object is exactly
    what validation left. *)
Theorem empty_window_list_warns st :
  accepted st = true ->
  aligned (prepared st) = true ->
  exists st',
    get st = Ok (RNone, st') /\
    (entries st' = [] ->
     status st' = warning (status (prepared st)) no_visibility /\
     In no_visibility (warnings (status st'))) /\
    (entries st' <> [] -> status st' = status (prepared st)).
Proof.
  intros Hok Hal.
  destruct (aligned_arrays _ Hal)
    as (earth & moon & sun & pole & ram & He & Hm & Hs & Hp & Hr
        & Lsaa & Le & Lm & Ls & Lp & Lr).
  destruct (get_run st earth moon sun pole ram Hok He Hm Hs Hp Hr
              Lsaa Le Lm Ls Lp Lr) as (stw & a & Hrun & Hk & Ha & Hc & Hv & _).
  exists (finish stw a). split; [exact Hrun|].
  assert (Hst : status stw = status (prepared st))
    by apply (akin_field status _ _ (fun s => eq_refl) Hk).
  unfold finish. cbn.
  destruct (make_windows stw (contents stw a)) as [|w ws]; cbn.
  - split; [|congruence]. intros _. rewrite Hst. split; [reflexivity|].
    apply in_or_app. right. now left.
  - split; [discriminate|]. intros _. exact Hst.
Qed.


(** [get] never writes into the ephemeris, and with the SAA constraint
    disabled it leaves the provider's SAA array alone as well. *)
Lemma get_frame st r st' :
  aligned (prepared st) = true ->
  get st = Ok (r, st') ->
  ephem st' = ephem st /\ (saa_cons st = false -> saa st' = saa st).
Proof.
  intros Hal Hget. destruct (accepted st) eqn:Hok.
  - destruct (aligned_arrays _ Hal)
      as (earth & moon & sun & pole & ram & He & Hm & Hs & Hp & Hr
          & Lsaa & Le & Lm & Ls & Lp & Lr).
    destruct (get_run st earth moon sun pole ram Hok He Hm Hs Hp Hr
                Lsaa Le Lm Ls Lp Lr)
      as (stw & a & Hrun & Hk & Ha & Hc & Hv & Hsaa).
    rewrite Hrun in Hget. injection Hget as _ <-.
    pose proof (akin_field ephem _ _ (fun s => eq_refl) Hk) as Hephem.
    unfold finish. cbn.
    destruct (length (make_windows stw (contents stw a)) =? 0); cbn;
      (split; [exact Hephem|exact Hsaa]).
  - rewrite (get_rejected st Hok) in Hget. injection Hget as _ <-.
    now split.
Qed.

End Query.

Section Pole.

Context {AP : Astropy}.





End Pole.

(** * The statements on explicit data *)

Import Demo.

Ltac evaluate := vm_compute; first [reflexivity | split; reflexivity].

Ltac evaluate_all :=
  repeat match goal with |- _ /\ _ => split end; vm_compute; reflexivity.

(** C2 (the code departs from it).  With the SAA and Earth constraints
    enabled, [get] binds the combined array to a view of the provider's SAA
    array and accumulates the Earth constraint into it: the provider's array,
    all false before the call, is true at the Earth-blocked sample after
    it. *)
Theorem get_writes_through_saa_view :
  saa_insaacons (saa q_saa_earth)
  = [false; false; false; false; false; false] /\
  inconstraint (after q_saa_earth) = Some (SaaView 0 6) /\
  get q_saa_earth = Ok (RNone, after q_saa_earth) /\
  saa_insaacons (saa (after q_saa_earth))
  = [false; false; true; false; false; false].
Proof. evaluate_all. Qed.

(** The same aliasing, seen from the classifier: with the SAA constraint
    enabled, a sample that only the pole constraint blocks is read back as
    inside the SAA. *)
Example pole_sample_reads_as_saa :
  saa_val (prepared q_all) = [false; false; false; false; false; false] /\
  value (inpolecons (after q_all))
  = Ok (Some [false; false; false; false; true; false]) /\
  value (constraint 4 (after q_all)) = Ok "SAA"%string /\
  value (constraint 4 (after q_no_saa)) = Ok "Unknown"%string.
Proof. evaluate_all. Qed.

(** C10 (the code departs from it).  With every constraint enabled, [get]
    succeeds and leaves the combined array bound to the view of the
    provider's SAA array.  Sample 4 lies inside the query window and is
    blocked by the pole constraint only: the provider reported no SAA there,
    and the Sun, Moon, Earth and ram arrays are false there.  The combined
    array is true at it, and the classifier answers ["SAA"], not
    ["Unknown"], because the SAA array it reads is the combined array.  The
    same query with the SAA constraint disabled is answered ["Unknown"]. *)
Theorem pole_only_sample_answered_saa :
  get q_all = Ok (RNone, after q_all) /\
  nth_error (timestamp (after q_all)) 4 = Some 240%Z /\
  (begin (after q_all) < 240 < end_ (after q_all))%Z /\
  nth_error (saa_insaacons (saa q_all)) 4 = Some false /\
  value (insuncons (after q_all))
  = Ok [false; false; false; false; false; false] /\
  value (inmooncons (after q_all))
  = Ok [false; false; false; false; false; false] /\
  value (inearthcons (after q_all))
  = Ok [false; false; true; false; false; false] /\
  value (inramcons (after q_all))
  = Ok (Some [false; true; false; false; false; false]) /\
  value (inpolecons (after q_all))
  = Ok (Some [false; false; false; false; true; false]) /\
  inconstraint (after q_all) = Some (insaacons (after q_all)) /\
  contents (after q_all) (insaacons (after q_all))
  = [false; true; true; false; true; false] /\
  value (constraint 4 (after q_all)) = Ok "SAA"%string /\
  get q_no_saa = Ok (RNone, after q_no_saa) /\
  option_map (contents (after q_no_saa)) (inconstraint (after q_no_saa))
  = Some [false; true; true; false; true; false] /\
  value (constraint 4 (after q_no_saa)) = Ok "Unknown"%string.
Proof.
  repeat match goal with |- _ /\ _ => split end;
    vm_compute; first [reflexivity | split; reflexivity].
Qed.

Lemma combined_is_or_of_enabled_witness :
  aligned (prepared q_all) = true /\
  get q_all = Ok (RNone, after q_all) /\
  exists comb,
    option_map (contents (after q_all)) (inconstraint (after q_all))
    = Some comb /\
    length comb = len (after q_all).
Proof.
  assert (Ha : aligned (prepared q_all) = true) by (vm_compute; reflexivity).
  assert (Hg : get q_all = Ok (RNone, after q_all))
    by (vm_compute; reflexivity).
  split; [exact Ha|]. split; [exact Hg|].
  destruct (combined_is_or_of_enabled q_all (after q_all) Ha Hg)
    as ((comb & earth & moon & sun & pole & ram
         & _ & _ & _ & _ & _ & Hc & Hl & _) & _).
  exists comb. split; assumption.
Defined.

Lemma window_sentinel_iff_witness :
  nth_error (timestamp q_all) 0 = Some 0%Z /\
  (value (constraint 0 q_all) = Ok "Window"%string
   <-> (0 <= begin q_all \/ 0 >= end_ q_all)%Z).
Proof.
  split; [reflexivity|].
  apply (window_sentinel_iff q_all 0 0). reflexivity.
Defined.

(** C3, as first stated, fails on the boundary: the first sample of the
    slice carries the begin time itself, neither before the begin time nor
    after the end time, and is answered with the sentinel. *)
Lemma window_sentinel_strict_counterexample :
  nth_error (timestamp q_all) 0 = Some 0%Z /\
  ~ (value (constraint 0 q_all) = Ok "Window"%string
     <-> (0 < begin q_all \/ 0 > end_ q_all)%Z).
Proof.
  split; [reflexivity|].
  intros [H _]. assert (E : value (constraint 0 q_all) = Ok "Window"%string)
    by (vm_compute; reflexivity).
  apply H in E. vm_compute in E. destruct E as [E|E]; discriminate E.
Qed.


Lemma pole_and_ram_are_unknown_witness :
  value (constraint 4 (after q_no_saa)) = Ok "Unknown"%string.
Proof.
  apply (pole_and_ram_are_unknown (after q_no_saa) 4 240
           (Owned [false; true; true; false; true; false])
           [false; false; false; false; false; false]
           [false; false; false; false; false; false]
           [false; false; true; false; false; false]);
    evaluate.
Defined.




Lemma accessors_idempotent_witness :
  inearthcons q_all
  = Ok ([false; false; true; false; false; false], run inearthcons q_all) /\
  inearthcons (run inearthcons q_all)
  = Ok ([false; false; true; false; false; false], run inearthcons q_all).
Proof.
  assert (H : inearthcons q_all
              = Ok ([false; false; true; false; false; false],
                    run inearthcons q_all))
    by (vm_compute; reflexivity).
  split; [exact H|].
  exact (proj1 accessors_idempotent q_all _ _ H).
Defined.

Lemma empty_window_list_warns_witness :
  accepted q_occulted = true /\
  aligned (prepared q_occulted) = true /\
  exists st',
    get q_occulted = Ok (RNone, st') /\
    (entries st' = [] ->
     status st' = warning (status (prepared q_occulted)) no_visibility /\
     In no_visibility (warnings (status st'))) /\
    (entries st' <> [] -> status st' = status (prepared q_occulted)).
Proof.
  split; [reflexivity|]. split; [vm_compute; reflexivity|].
  apply (empty_window_list_warns q_occulted); vm_compute; reflexivity.
Defined.

(** The occulted target has no window, and the warning is there. *)
Example occulted_target_warns :
  entries (after q_occulted) = [] /\
  warnings (status (after q_occulted)) = [no_visibility].
Proof. evaluate_all. Qed.

(** * More of the class *)

(** ** What the accessors compute *)

Section Formulas.

Context {AP : Astropy}.

Lemma value_inearthcons st : value (inearthcons st) = earth_val st.
Proof.
  pose proof (inearthcons_run st) as R.
  destruct (earth_val st); [destruct R as (s & -> & _)|rewrite R]; reflexivity.
Qed.

Lemma value_insuncons st : value (insuncons st) = sun_val st.
Proof.
  pose proof (insuncons_run st) as R.
  destruct (sun_val st); [destruct R as (s & -> & _)|rewrite R]; reflexivity.
Qed.

Lemma value_inmooncons st : value (inmooncons st) = moon_val st.
Proof.
  pose proof (inmooncons_run st) as R.
  destruct (moon_val st); [destruct R as (s & -> & _)|rewrite R]; reflexivity.
Qed.

Lemma value_inramcons st : value (inramcons st) = ram_val st.
Proof.
  pose proof (inramcons_run st) as R.
  destruct (ram_val st); [destruct R as (s & -> & _)|rewrite R]; reflexivity.
Qed.

Lemma value_inpolecons st : value (inpolecons st) = pole_val st.
Proof.
  pose proof (inpolecons_run st) as R.
  destruct (pole_val st); [destruct R as (s & -> & _)|rewrite R]; reflexivity.
Qed.

Lemma value_skycoord st : value (skycoord st) = Ok (sky_val st).
Proof. destruct (skycoord_run st) as (s & -> & _). reflexivity. Qed.

Lemma value_ok {A} (r : result (A * Visibility)) a st' :
  r = Ok (a, st') -> value r = Ok a.
Proof. now intros ->. Qed.

(** X5.  On the read that computes it, sample [i] of the Earth array is true
    if and only if the separation of the Earth direction from the target is
    less than the Earth occultation angle, widened by the extra Earth margin
    unless the target is satellite-relative, plus the Earth angular radius at
    [i]; the array is then kept in [_inearthcons]. *)
Theorem earth_constraint_formula st a st' i dir es tgt :
  _inearthcons st = None ->
  inearthcons st = Ok (a, st') ->
  nth_error (active st (eph_earth (ephem st))) i = Some dir ->
  nth_error (active st (eph_earthsize (ephem st))) i = Some es ->
  target_at (sky_val st) i = Some tgt ->
  nth_error a i
  = Some (qlt (separation dir tgt)
              (qadd (if isat st then earthoccult st
                     else qadd (earthoccult st) (earthextra st)) es)) /\
  _inearthcons st' = Some a.
Proof.
  intros Hc Hrun Hd He Ht.
  pose proof (value_ok _ _ _ Hrun) as Hv. rewrite value_inearthcons in Hv.
  unfold earth_val in Hv. rewrite Hc in Hv. unfold earth_fresh in Hv.
  destruct (separation_arr _ _) as [ang|] eqn:Es; [|discriminate].
  cbn [rbind] in Hv. split.
  - pose proof (separation_arr_nth _ _ _ _ _ _ Es Hd Ht) as Ha.
    pose proof (map_nth_error
                  (qadd (with_extra st (earthoccult st) (earthextra st)))
                  _ _ He) as Hl.
    exact (broadcast2_nth _ _ _ _ _ _ _ Hv Ha Hl).
  - unfold inearthcons in Hrun. rewrite Hc in Hrun.
    unfold bind, lift, assign, ret in Hrun.
    destruct (skycoord st) as [[sc s1]|]; [|discriminate].
    destruct (separation_arr _ sc); [|discriminate].
    destruct (Np.broadcast2 _ _ _); [|discriminate].
    now injection Hrun as <- <-.
Qed.

(** X6.  On the read that computes it, sample [i] of the Sun array is true if
    and only if the separation of the Sun direction from the target is less
    than the Sun occultation angle, widened by the extra Sun margin unless the
    target is satellite-relative; the array is then kept in [_insuncons]. *)
Theorem sun_constraint_formula st a st' i dir tgt :
  _insuncons st = None ->
  insuncons st = Ok (a, st') ->
  nth_error (active st (eph_sun (ephem st))) i = Some dir ->
  target_at (sky_val st) i = Some tgt ->
  nth_error a i
  = Some (qlt (separation dir tgt)
              (if isat st then sunoccult st
               else qadd (sunoccult st) (sunextra st))) /\
  _insuncons st' = Some a.
Proof.
  intros Hc Hrun Hd Ht.
  pose proof (value_ok _ _ _ Hrun) as Hv. rewrite value_insuncons in Hv.
  unfold sun_val in Hv. rewrite Hc in Hv. unfold sun_fresh in Hv.
  destruct (separation_arr _ _) as [ang|] eqn:Es; [|discriminate].
  cbn [rbind] in Hv. injection Hv as <-. split.
  - pose proof (separation_arr_nth _ _ _ _ _ _ Es Hd Ht) as Ha.
    exact (map_nth_error
             (fun x => qlt x (with_extra st (sunoccult st) (sunextra st)))
             _ _ Ha).
  - unfold insuncons in Hrun. rewrite Hc in Hrun.
    unfold bind, lift, assign, ret in Hrun.
    destruct (skycoord st) as [[sc s1]|]; [|discriminate].
    destruct (separation_arr _ sc); [|discriminate].
    now injection Hrun as <- <-.
Qed.

(** X7.  On the read that computes it, sample [i] of the Moon array is true
    if and only if the separation of the Moon direction from the target is
    less than the Moon occultation angle, widened by the extra Moon margin
    unless the target is satellite-relative; the array is then kept in
    [_inmooncons]. *)
Theorem moon_constraint_formula st a st' i dir tgt :
  _inmooncons st = None ->
  inmooncons st = Ok (a, st') ->
  nth_error (active st (eph_moon (ephem st))) i = Some dir ->
  target_at (sky_val st) i = Some tgt ->
  nth_error a i
  = Some (qlt (separation dir tgt)
              (if isat st then moonoccult st
               else qadd (moonoccult st) (moonextra st))) /\
  _inmooncons st' = Some a.
Proof.
  intros Hc Hrun Hd Ht.
  pose proof (value_ok _ _ _ Hrun) as Hv. rewrite value_inmooncons in Hv.
  unfold moon_val in Hv. rewrite Hc in Hv. unfold moon_fresh in Hv.
  destruct (separation_arr _ _) as [ang|] eqn:Es; [|discriminate].
  cbn [rbind] in Hv. injection Hv as <-. split.
  - pose proof (separation_arr_nth _ _ _ _ _ _ Es Hd Ht) as Ha.
    exact (map_nth_error
             (fun x => qlt x (with_extra st (moonoccult st) (moonextra st)))
             _ _ Ha).
  - unfold inmooncons in Hrun. rewrite Hc in Hrun.
    unfold bind, lift, assign, ret in Hrun.
    destruct (skycoord st) as [[sc s1]|]; [|discriminate].
    destruct (separation_arr _ sc); [|discriminate].
    now injection Hrun as <- <-.
Qed.

(** X8.  The ram accessor returns [None], and assigns nothing, exactly when
    the velocity flag of the ephemeris is off or its velocity vector is
    missing.  On the read that computes the array, sample [i] is true if and
    only if the separation of the velocity direction from the target is less
    than the ram size, widened by the extra ram margin unless the target is
    satellite-relative; the angles are kept in [ramang] and the array in
    [_inramcons]. *)
Theorem ram_constraint_formula st :
  (ram_defined st = false -> inramcons st = Ok (None, st)) /\
  (forall st', ram_defined st = true -> inramcons st <> Ok (None, st')) /\
  (forall a st' vv i v tgt,
     _inramcons st = None ->
     inramcons st = Ok (Some a, st') ->
     eph_velvec (ephem st) = Some vv ->
     nth_error (active st vv) i = Some v ->
     target_at (sky_val st) i = Some tgt ->
     nth_error a i
     = Some (qlt (separation (cartesian v) tgt)
                 (if isat st then ramsize st
                  else qadd (ramsize st) (ramextra st))) /\
     _inramcons st' = Some a /\
     exists ang,
       ramang st' = Some ang /\
       nth_error ang i = Some (separation (cartesian v) tgt)).
Proof.
  split; [|split].
  - unfold ram_defined, inramcons.
    destruct (eph_velocity (ephem st)), (eph_velvec (ephem st));
      solve [discriminate | reflexivity].
  - intros st' Hd Hrun. pose proof (value_ok _ _ _ Hrun) as Hv.
    rewrite value_inramcons in Hv. unfold ram_defined, ram_val in *.
    destruct (eph_velocity (ephem st)); [|discriminate].
    destruct (eph_velvec (ephem st)); [|discriminate].
    destruct (_inramcons st); [discriminate|].
    destruct (ram_fresh st _ _); discriminate.
  - intros a st' vv i v tgt Hc Hrun Hvv Hn Ht.
    unfold inramcons in Hrun. rewrite Hvv, Hc in Hrun.
    destruct (eph_velocity (ephem st)); [|discriminate].
    unfold bind, lift, assign, ret in Hrun.
    pose proof (value_skycoord st) as Hsky.
    destruct (skycoord st) as [[sc s1]|]; [|discriminate].
    injection Hsky as Hsky. subst sc.
    destruct (separation_arr _ _) as [ang|] eqn:Es; [|discriminate].
    injection Hrun as <- <-.
    pose proof (map_nth_error cartesian _ _ Hn) as Hn'.
    pose proof (separation_arr_nth _ _ _ _ _ _ Es Hn' Ht) as Ha.
    split; [|split; [reflexivity|exists ang; split; [reflexivity|exact Ha]]].
    exact (map_nth_error
             (fun x => qlt x (with_extra st (ramsize st) (ramextra st)))
             _ _ Ha).
Qed.

End Formulas.

(** ** The active slice and the reads of the accessors *)

Section Slice.

Context {AP : Astropy}.

Lemma nth_error_slice {A} (l : list A) s e i :
  nth_error (Np.slice l s e) i
  = if i <? e - s then nth_error l (s + i) else None.
Proof.
  unfold Np.slice. now rewrite nth_error_firstn, nth_error_skipn.
Qed.

(** X15.  The active slice runs from the grid sample at the index of the
    begin time up to and including the sample at the index of the end time:
    when the two indices are in order and on the grid, [len] counts both
    ends, and the first and the last timestamp of the slice are the grid
    samples at those indices.  When the end index lies before the begin
    index the slice is empty. *)
Theorem slice_includes_end_sample st :
  let b := ephindex (ephem st) (begin st) in
  let e := ephindex (ephem st) (end_ st) in
  (b <= e -> e < length (eph_timestamp (ephem st)) ->
   len st = e - b + 1 /\
   nth_error (timestamp st) 0 = nth_error (eph_timestamp (ephem st)) b /\
   nth_error (timestamp st) (len st - 1)
   = nth_error (eph_timestamp (ephem st)) e) /\
  (e < b -> len st = 0).
Proof.
  intros b e. unfold len, timestamp, active, ephstart, ephstop.
  fold b. fold e. split.
  - intros Hbe He. rewrite slice_length.
    replace (Nat.min (e + 1 - b) (length (eph_timestamp (ephem st)) - b))
      with (e - b + 1) by lia.
    split; [reflexivity|]. rewrite !nth_error_slice.
    replace (0 <? e + 1 - b) with true by (symmetry; apply Nat.ltb_lt; lia).
    replace (e - b + 1 - 1 <? e + 1 - b) with true
      by (symmetry; apply Nat.ltb_lt; lia).
    split; f_equal; lia.
  - intros H. rewrite slice_length. lia.
Qed.

(** X10.  The target coordinates used at sample [i]: for an ephemeris in
    apparent coordinates, the target transformed to the equinox of the
    timestamp of that sample; otherwise the target as given, the same for
    every sample.  They are computed on the first read and kept in
    [_skycoord]. *)
Theorem target_per_sample st i t :
  _skycoord st = None ->
  nth_error (timestamp st) i = Some t ->
  exists sc st',
    skycoord st = Ok (sc, st') /\
    _skycoord st' = Some sc /\
    target_at sc i
    = Some (if eph_apparent (ephem st)
            then to_fk5 t (mkSkyCoord (ra st) (dec st))
            else mkSkyCoord (ra st) (dec st)).
Proof.
  intros Hc Ht. unfold skycoord. rewrite Hc.
  do 2 eexists. split; [reflexivity|]. split; [reflexivity|].
  destruct (eph_apparent (ephem st)); [|reflexivity].
  exact (map_nth_error (fun t => to_fk5 t (mkSkyCoord (ra st) (dec st)))
           _ _ Ht).
Qed.

Lemma reads_same st st' : reads st st' -> same st st'.
Proof.
  intros [s sc s' H|s a s' H|s a s' H|s a s' H|s a s' H|s a s' H].
  - destruct (skycoord_run s) as (s1 & R & Hs). congruence.
  - pose proof (inearthcons_run s) as R. destruct (earth_val s);
      [destruct R as (s1 & R & Hs)|]; congruence.
  - pose proof (insuncons_run s) as R. destruct (sun_val s);
      [destruct R as (s1 & R & Hs)|]; congruence.
  - pose proof (inmooncons_run s) as R. destruct (moon_val s);
      [destruct R as (s1 & R & Hs)|]; congruence.
  - pose proof (inramcons_run s) as R. destruct (ram_val s);
      [destruct R as (s1 & R & Hs)|]; congruence.
  - pose proof (inpolecons_run s) as R. destruct (pole_val s);
      [destruct R as (s1 & R & Hs)|]; congruence.
Qed.

(** X11.  Reading one accessor changes nothing but cached attributes, and
    does not change what any accessor returns: the reads can be made in any
    order. *)
Theorem reads_are_independent st st' :
  reads st st' ->
  uncached st' = uncached st /\
  value (skycoord st') = value (skycoord st) /\
  value (inearthcons st') = value (inearthcons st) /\
  value (insuncons st') = value (insuncons st) /\
  value (inmooncons st') = value (inmooncons st) /\
  value (inramcons st') = value (inramcons st) /\
  value (inpolecons st') = value (inpolecons st).
Proof.
  intros H. destruct (reads_same _ _ H) as (U & K & E & S & M & R & P).
  rewrite !value_skycoord, !value_inearthcons, !value_insuncons,
    !value_inmooncons, !value_inramcons, !value_inpolecons.
  repeat split; congruence.
Qed.

(** X9.  Over providers whose arrays follow the grid, every accessor returns
    an array, and the array it computes has one sample per timestamp of the
    active slice; the ram and pole accessors do so where their array is
    defined. *)
Theorem arrays_cover_slice st :
  on_grid st = true -> sky_fits st = true ->
  (exists a st', inearthcons st = Ok (a, st') /\
                 (_inearthcons st = None -> length a = len st)) /\
  (exists a st', insuncons st = Ok (a, st') /\
                 (_insuncons st = None -> length a = len st)) /\
  (exists a st', inmooncons st = Ok (a, st') /\
                 (_inmooncons st = None -> length a = len st)) /\
  (ram_defined st = true ->
   exists a st', inramcons st = Ok (Some a, st') /\
                 (_inramcons st = None -> length a = len st)) /\
  (pole_defined st = true ->
   exists a st', inpolecons st = Ok (Some a, st') /\
                 (_inpolecons st = None -> length a = len st)).
Proof.
  intros Hg Hs. pose proof (sky_val_fits st Hs) as Hf.
  split; [|split; [|split; [|split]]].
  - pose proof (inearthcons_run st) as R. unfold earth_val in *.
    destruct (_inearthcons st) as [c|].
    + destruct R as (s & R & _). exists c, s. split; [exact R|discriminate].
    + destruct (earth_fresh_fits st _ Hg Hf) as (a & E & L). rewrite E in R.
      destruct R as (s & R & _). now exists a, s.
  - pose proof (insuncons_run st) as R. unfold sun_val in *.
    destruct (_insuncons st) as [c|].
    + destruct R as (s & R & _). exists c, s. split; [exact R|discriminate].
    + destruct (sun_fresh_fits st _ Hg Hf) as (a & E & L). rewrite E in R.
      destruct R as (s & R & _). now exists a, s.
  - pose proof (inmooncons_run st) as R. unfold moon_val in *.
    destruct (_inmooncons st) as [c|].
    + destruct R as (s & R & _). exists c, s. split; [exact R|discriminate].
    + destruct (moon_fresh_fits st _ Hg Hf) as (a & E & L). rewrite E in R.
      destruct R as (s & R & _). now exists a, s.
  - intros Hd. pose proof (inramcons_run st) as R.
    unfold ram_defined, ram_val in *.
    destruct (eph_velocity (ephem st)); [|discriminate].
    destruct (eph_velvec (ephem st)) as [v|] eqn:Ev; [|discriminate].
    destruct (_inramcons st) as [c|].
    + destruct R as (s & R & _). exists c, s. split; [exact R|discriminate].
    + destruct (ram_fresh_fits st v _ Hg Ev Hf) as (a & E & L).
      rewrite E in R. destruct R as (s & R & _). now exists a, s.
  - intros Hd. pose proof (inpolecons_run st) as R.
    unfold pole_defined, pole_val in *.
    destruct (eph_velocity (ephem st)); [|discriminate].
    destruct (eph_polevec (ephem st)) as [v|] eqn:Ev; [|discriminate].
    destruct (_inpolecons st) as [c|].
    + destruct R as (s & R & _). exists c, s. split; [exact R|discriminate].
    + destruct (pole_fresh_fits st v _ Hg Ev Hf) as (a & E & L).
      rewrite E in R. destruct R as (s & R & _). now exists a, s.
Qed.

End Slice.

(** ** Reasoning on method calls *)

Section Hoare.

Context {AP : Astropy}.

Variable E : exn -> Prop.

Lemma hoare_ret {A} (P : Visibility -> Prop) (a : A) Q :
  (forall st, P st -> Q a st) -> hoare E P (ret a) Q.
Proof. intros H st HP. now apply H. Qed.

Lemma hoare_bind {A B} P (m : M A) R (k : A -> M B) Q :
  hoare E P m R -> (forall a, hoare E (R a) (k a) Q) ->
  hoare E P (bind m k) Q.
Proof.
  intros Hm Hk st HP. specialize (Hm st HP). unfold bind.
  destruct (m st) as [[a s1]|e]; [|exact Hm]. now apply Hk.
Qed.

Lemma hoare_gets {A} P (f : Visibility -> A) Q :
  (forall st, P st -> Q (f st) st) -> hoare E P (gets f) Q.
Proof. intros H st HP. now apply H. Qed.

Lemma hoare_assign P f Q :
  (forall st, P st -> Q tt (f st)) -> hoare E P (assign f) Q.
Proof. intros H st HP. now apply H. Qed.

Lemma hoare_lift {A} P (r : result A) Q :
  (forall e, r = Raise e -> E e) ->
  (forall a st, r = Ok a -> P st -> Q a st) ->
  hoare E P (lift r) Q.
Proof.
  intros He Ha st HP. unfold lift. destruct r as [a|e]; [now apply Ha|].
  now apply He.
Qed.

Lemma hoare_when P b (m : M unit) :
  hoare E P m (fun _ => P) -> hoare E P (when b m) (fun _ => P).
Proof.
  intros H. destruct b; [exact H|]. now apply hoare_ret.
Qed.

Lemma hoare_weaken {A} (P P' : Visibility -> Prop) (m : M A)
    (Q Q' : A -> Visibility -> Prop) :
  hoare E P' m Q' -> (forall st, P st -> P' st) ->
  (forall a st, Q' a st -> Q a st) -> hoare E P m Q.
Proof.
  intros H HP HQ st Hst. specialize (H st (HP st Hst)).
  destruct (m st) as [[a s1]|e]; [now apply HQ|exact H].
Qed.

Lemma broadcast2_raises {A B C} (f : A -> B -> C) xs ys e :
  Np.broadcast2 f xs ys = Raise e -> e = ValueError.
Proof.
  unfold Np.broadcast2. destruct (length xs =? length ys); [discriminate|].
  destruct xs as [|x [|x' xs]], ys as [|y [|y' ys]];
    try discriminate; now intros [= <-].
Qed.

Lemma separation_arr_raises cs sc e :
  separation_arr cs sc = Raise e -> e = ValueError.
Proof.
  destruct sc; simpl; [discriminate|apply broadcast2_raises].
Qed.

Lemma iadd_raises dst src e : Np.iadd dst src = Raise e -> e = ValueError.
Proof.
  unfold Np.iadd. destruct (length src =? length dst); [discriminate|].
  destruct src as [|b [|b' src]]; try discriminate; now intros [= <-].
Qed.

Ltac raises :=
  unfold rbind;
  repeat match goal with
         | |- context [match separation_arr ?a ?b with _ => _ end] =>
             let H := fresh in
             destruct (separation_arr a b) eqn:H;
             [|apply separation_arr_raises in H; congruence]
         | |- context [match Np.broadcast2 ?f ?a ?b with _ => _ end] =>
             let H := fresh in
             destruct (Np.broadcast2 f a b) eqn:H;
             [|apply broadcast2_raises in H; congruence]
         end;
  try discriminate.

Lemma earth_val_raises st e : earth_val st = Raise e -> e = ValueError.
Proof.
  unfold earth_val, earth_fresh. destruct (_inearthcons st); [discriminate|].
  raises. apply broadcast2_raises.
Qed.

Lemma sun_val_raises st e : sun_val st = Raise e -> e = ValueError.
Proof.
  unfold sun_val, sun_fresh. destruct (_insuncons st); [discriminate|].
  raises.
Qed.

Lemma moon_val_raises st e : moon_val st = Raise e -> e = ValueError.
Proof.
  unfold moon_val, moon_fresh. destruct (_inmooncons st); [discriminate|].
  raises.
Qed.

Lemma ram_val_raises st e : ram_val st = Raise e -> e = ValueError.
Proof.
  unfold ram_val, ram_fresh.
  destruct (eph_velocity (ephem st)), (eph_velvec (ephem st)),
    (_inramcons st); try discriminate.
  raises.
Qed.

Lemma pole_val_raises st e : pole_val st = Raise e -> e = ValueError.
Proof.
  unfold pole_val, pole_fresh.
  destruct (eph_velocity (ephem st)), (eph_polevec (ephem st)),
    (_inpolecons st); try discriminate.
  raises.
Qed.

Hypothesis value_error_allowed : E ValueError.

(** An accessor keeps whatever the cached attributes do not touch. *)
Section Accessor_rules.

Variable P : Visibility -> Prop.
Hypothesis P_same : forall st st', P st -> same st st' -> P st'.

Lemma hoare_inearthcons : hoare E P inearthcons (fun _ => P).
Proof.
  intros st HP. pose proof (inearthcons_run st) as R.
  destruct (earth_val st) eqn:V.
  - destruct R as (s & -> & Hs). now apply (P_same st).
  - rewrite R. apply earth_val_raises in V. now subst.
Qed.

Lemma hoare_insuncons : hoare E P insuncons (fun _ => P).
Proof.
  intros st HP. pose proof (insuncons_run st) as R.
  destruct (sun_val st) eqn:V.
  - destruct R as (s & -> & Hs). now apply (P_same st).
  - rewrite R. apply sun_val_raises in V. now subst.
Qed.

Lemma hoare_inmooncons : hoare E P inmooncons (fun _ => P).
Proof.
  intros st HP. pose proof (inmooncons_run st) as R.
  destruct (moon_val st) eqn:V.
  - destruct R as (s & -> & Hs). now apply (P_same st).
  - rewrite R. apply moon_val_raises in V. now subst.
Qed.

Lemma hoare_inramcons :
  hoare E P inramcons (fun r s => P s /\ ram_val s = Ok r).
Proof.
  intros st HP. pose proof (inramcons_run st) as R.
  destruct (ram_val st) eqn:V.
  - destruct R as (s & -> & Hs). split; [now apply (P_same st)|].
    destruct Hs as (_ & _ & _ & _ & _ & -> & _). exact V.
  - rewrite R. apply ram_val_raises in V. now subst.
Qed.

Lemma hoare_inpolecons :
  hoare E P inpolecons (fun r s => P s /\ pole_val s = Ok r).
Proof.
  intros st HP. pose proof (inpolecons_run st) as R.
  destruct (pole_val st) eqn:V.
  - destruct R as (s & -> & Hs). split; [now apply (P_same st)|].
    destruct Hs as (_ & _ & _ & _ & _ & _ & ->). exact V.
  - rewrite R. apply pole_val_raises in V. now subst.
Qed.

End Accessor_rules.

End Hoare.

(** ** What [get] may and may not change *)

Section Get_frame.

Context {AP : Astropy}.
Context {CO : Collaborators}.

Lemma grown_refl arr s e : grown arr arr s e.
Proof. repeat split; auto. Qed.

Lemma grown_trans a b c s e : grown a b s e -> grown b c s e -> grown a c s e.
Proof.
  intros (L1 & M1 & O1) (L2 & M2 & O2). split; [congruence|]. split.
  - auto.
  - intros i Hi. now rewrite O2, O1.
Qed.

Lemma nth_error_splice {A} (arr l : list A) off i :
  off <= length arr ->
  nth_error (Np.splice arr off l) i
  = if i <? off then nth_error arr i
    else if i <? off + length l then nth_error l (i - off)
         else nth_error arr i.
Proof.
  intros Hoff. unfold Np.splice.
  assert (Hf : length (firstn off arr) = off)
    by (rewrite length_firstn; lia).
  destruct (i <? off) eqn:E1.
  - apply Nat.ltb_lt in E1.
    rewrite nth_error_app1 by lia.
    rewrite nth_error_firstn.
    now replace (i <? off) with true by (symmetry; apply Nat.ltb_lt; lia).
  - apply Nat.ltb_ge in E1. rewrite nth_error_app2 by lia. rewrite Hf.
    destruct (i <? off + length l) eqn:E2.
    + apply Nat.ltb_lt in E2. now rewrite nth_error_app1 by lia.
    + apply Nat.ltb_ge in E2. rewrite nth_error_app2 by lia.
      rewrite nth_error_skipn. f_equal. lia.
Qed.

Lemma iadd_grows dst src l :
  Np.iadd dst src = Ok l ->
  length l = length dst /\
  forall j, nth_error dst j = Some true -> nth_error l j = Some true.
Proof.
  unfold Np.iadd. destruct (length src =? length dst) eqn:E.
  - apply Nat.eqb_eq in E. intros [= <-]. split.
    + apply zip_with_length. congruence.
    + intros j Hj.
      destruct (nth_error src j) as [b|] eqn:Hs.
      * exact (nth_error_zip_with orb _ _ _ _ _ Hj Hs).
      * apply nth_error_None in Hs.
        assert (nth_error dst j <> None) by congruence.
        apply nth_error_Some in H. lia.
  - destruct src as [|b [|b' src]]; try discriminate.
    intros [= <-]. split; [apply length_map|].
    intros j Hj. exact (map_nth_error (fun d => d || b) _ _ Hj).
Qed.

Lemma same_frame st st' :
  same st st' ->
  settings st' = settings st /\ begin st' = begin st /\
  saa st' = saa st /\ inconstraint st' = inconstraint st /\
  ephstart st' = ephstart st /\ ephstop st' = ephstop st.
Proof.
  intros (U & _).
  repeat split;
    match goal with
    | |- ?f st' = ?f st =>
        change (f (uncached st') = f (uncached st)); now rewrite U
    end.
Qed.

Lemma inv_same st0 st st' :
  accumulation_inv st0 st -> same st st' -> accumulation_inv st0 st'.
Proof.
  intros (Hs & Hb & Hg & Hv & Ho) H.
  destruct (same_frame _ _ H) as (E1 & E2 & E3 & E4 & E5 & E6).
  unfold accumulation_inv, bound_in_slice in *.
  rewrite E1, E2, E3, E4, E5, E6. auto.
Qed.

Lemma hoare_iadd st0 src :
  hoare only_value_error (accumulation_inv st0) (iadd_inconstraint src)
    (fun _ => accumulation_inv st0).
Proof.
  intros st (Hs & Hb & Hg & Hv & Ho). unfold iadd_inconstraint.
  unfold bound_in_slice in Hv.
  destruct (inconstraint st) as [[l|off n]|] eqn:Ha; [| |contradiction].
  - cbn [contents]. destruct (Np.iadd l src) as [l'|e] eqn:Ei;
      [|exact (iadd_raises _ _ _ Ei)].
    cbn. unfold accumulation_inv, bound_in_slice. cbn.
    repeat split; try assumption; try (now apply Hg).
    + now apply Ho.
    + eauto.
  - cbn [contents].
    destruct (Np.iadd _ src) as [l'|e] eqn:Ei;
      [|exact (iadd_raises _ _ _ Ei)].
    destruct Hv as (Hin & Hsl).
    destruct (iadd_grows _ _ _ Ei) as (Ll & Ml).
    rewrite slice_length in Ll.
    assert (Ln : length l' = n) by lia.
    cbn. unfold accumulation_inv, bound_in_slice. cbn.
    set (arr := saa_insaacons (saa st)) in *.
    assert (Hg' : grown arr (Np.splice arr off l')
                    (ephstart st) (ephstop st)).
    { split; [apply splice_length; lia|]. split.
      - intros i Hi. rewrite nth_error_splice by lia.
        destruct (i <? off) eqn:E1; [exact Hi|].
        destruct (i <? off + length l') eqn:E2; [|exact Hi].
        apply Nat.ltb_ge in E1. apply Nat.ltb_lt in E2.
        apply Ml. rewrite nth_error_slice.
        replace (i - off <? off + n - off) with true
          by (symmetry; apply Nat.ltb_lt; lia).
        now replace (off + (i - off)) with i by lia.
      - intros i Hi. rewrite nth_error_splice by lia.
        destruct (i <? off) eqn:E1; [reflexivity|].
        destruct (i <? off + length l') eqn:E2; [|reflexivity].
        apply Nat.ltb_ge in E1. apply Nat.ltb_lt in E2. lia. }
    split; [exact Hs|]. split; [exact Hb|].
    split; [exact (grown_trans _ _ _ _ _ Hg Hg')|].
    split.
    + rewrite splice_length by lia. now split.
    + intros Hf. destruct (Ho Hf) as (_ & l0 & Hl0). discriminate.
Qed.

Lemma inv_after_saa_step st c :
  hoare only_value_error
    (fun s => s = set_inconstraint
                    (Some (Owned (repeat false (len (prepared st)))))
                    (prepared st) /\ c = saa_cons st)
    (when c (a <- gets insaacons ;; assign (set_inconstraint (Some a))))
    (fun _ => accumulation_inv st).
Proof.
  intros s (-> & ->). destruct (saa_cons st) eqn:Ec; cbn.
  - split; [reflexivity|]. split; [reflexivity|].
    split; [apply grown_refl|]. split.
    + unfold bound_in_slice. cbn. unfold active. rewrite slice_length.
      assert (H : forall S E L,
                 Nat.min S L + Nat.min (E - S) (L - S) <= L /\
                 (Nat.min (E - S) (L - S) = 0 \/
                  (S <= Nat.min S L /\
                   Nat.min S L + Nat.min (E - S) (L - S) <= E))) by lia.
      apply (H (ephstart (prepared st)) (ephstop (prepared st))).
    + intros Hf. congruence.
  - split; [reflexivity|]. split; [reflexivity|].
    split; [apply grown_refl|]. split; [exact I|].
    intros _. split; [reflexivity|]. eexists. reflexivity.
Qed.

Lemma inv_after_step st (c : bool) (m : M (list bool)) :
  hoare only_value_error (accumulation_inv st) m
    (fun _ => accumulation_inv st) ->
  hoare only_value_error (accumulation_inv st)
    (when c (a <- m ;; iadd_inconstraint a))
    (fun _ => accumulation_inv st).
Proof.
  intros Hm. apply hoare_when.
  eapply hoare_bind; [exact Hm|]. intros a. apply hoare_iadd.
Qed.

Lemma pole_val_same st st' : same st st' -> pole_val st' = pole_val st.
Proof. now intros (_ & _ & _ & _ & _ & _ & H). Qed.

Lemma ram_val_same st st' : same st st' -> ram_val st' = ram_val st.
Proof. now intros (_ & _ & _ & _ & _ & H & _). Qed.

Lemma inv_after_optional_step st (c : bool) (m : M (option (list bool)))
    (val : Visibility -> result (option (list bool))) :
  (forall s s', same s s' -> val s' = val s) ->
  (forall P : Visibility -> Prop,
      (forall s s', P s -> same s s' -> P s') ->
      hoare only_value_error P m (fun r s => P s /\ val s = Ok r)) ->
  hoare only_value_error (accumulation_inv st)
    (when c
       (p <- m ;;
        match p with
        | None => ret tt
        | Some _ =>
            p' <- m ;;
            match p' with
            | Some a => iadd_inconstraint a
            | None => lift (Raise TypeError)
            end
        end))
    (fun _ => accumulation_inv st).
Proof.
  intros Hval Hm. apply hoare_when.
  eapply hoare_bind; [apply (Hm _ (inv_same st))|].
  intros [x|].
  - eapply hoare_bind.
    + apply (Hm (fun s => accumulation_inv st s /\ val s = Ok (Some x))).
      intros s s' (Hi & Hv) Hs. split; [exact (inv_same _ _ _ Hi Hs)|].
      now rewrite (Hval _ _ Hs).
    + intros [a|].
      * apply hoare_weaken
          with (P' := accumulation_inv st)
               (Q' := fun _ => accumulation_inv st);
          [apply hoare_iadd|now intros s ((H & _) & _)|auto].
      * intros s ((_ & H1) & H2). congruence.
  - apply hoare_ret. now intros s (H & _).
Qed.

Lemma hoare_assume {A} E (C : Prop) P (m : M A) Q :
  (C -> hoare E P m Q) -> hoare E (fun s => C /\ P s) m Q.
Proof. intros H s (HC & HP). now apply H. Qed.

Lemma inv_get_post st s :
  accepted st = true -> accumulation_inv st s -> get_post st RNone s.
Proof.
  intros Hok (Hs & Hb & Hg & Hv & Ho).
  repeat (split; [assumption|]). split; [|now split].
  intros Hf. exact (proj1 (Ho Hf)).
Qed.

(** [get], from start to end. *)
Lemma get_hoare st :
  hoare only_value_error (fun s => s = st) get (get_post st).
Proof.
  unfold get.
  apply hoare_bind with (R := fun b s => s = st /\ b = begin st);
    [apply hoare_gets; now intros s ->|intros b].
  apply hoare_bind
    with (R := fun _ s => s = set_begin (round_time (begin st) 60) st);
    [apply hoare_assign; now intros s (-> & ->)|intros _].
  apply hoare_bind with (R := fun _ s => s = reset st);
    [apply hoare_assign; now intros s ->|intros _].
  apply hoare_bind
    with (R := fun v s => s = reset st /\ v = validate_get (reset st));
    [apply hoare_gets; now intros s ->|intros v].
  apply hoare_bind
    with (R := fun _ s => s = prepared st /\ v = validate_get (reset st));
    [apply hoare_assign; now intros s (-> & ->)|intros _].
  destruct (negb (fst v)) eqn:Ev.
  - apply hoare_ret. intros s (-> & ->).
    split; [reflexivity|]. split; [reflexivity|].
    split; [apply grown_refl|]. split; [reflexivity|].
    split; [|reflexivity]. unfold accepted. now apply negb_true_iff.
  - apply hoare_weaken
      with (P' := fun s => accepted st = true /\ s = prepared st)
           (Q' := get_post st);
      [|intros s (-> & ->); split;
        [unfold accepted; now apply negb_false_iff|reflexivity]|auto].
    apply hoare_assume. intros Hok.
    apply hoare_bind
      with (R := fun n s => s = prepared st /\ n = len (prepared st));
      [apply hoare_gets; now intros s ->|intros n].
    apply hoare_bind
      with (R := fun _ s =>
                   s = set_inconstraint
                         (Some (Owned (repeat false (len (prepared st)))))
                         (prepared st));
      [apply hoare_assign; now intros s (-> & ->)|intros _].
    apply hoare_bind
      with (R := fun c s =>
                   s = set_inconstraint
                         (Some (Owned (repeat false (len (prepared st)))))
                         (prepared st) /\ c = saa_cons st);
      [apply hoare_gets; now intros s ->|intros c0].
    apply hoare_bind with (R := fun _ => accumulation_inv st);
      [apply inv_after_saa_step|intros _].
    apply hoare_bind with (R := fun _ => accumulation_inv st);
      [now apply hoare_gets|intros c1].
    apply hoare_bind with (R := fun _ => accumulation_inv st);
      [apply inv_after_step, hoare_inearthcons;
       [reflexivity|apply inv_same]|intros _].
    apply hoare_bind with (R := fun _ => accumulation_inv st);
      [now apply hoare_gets|intros c2].
    apply hoare_bind with (R := fun _ => accumulation_inv st);
      [apply inv_after_step, hoare_inmooncons;
       [reflexivity|apply inv_same]|intros _].
    apply hoare_bind with (R := fun _ => accumulation_inv st);
      [now apply hoare_gets|intros c3].
    apply hoare_bind with (R := fun _ => accumulation_inv st);
      [apply inv_after_step, hoare_insuncons;
       [reflexivity|apply inv_same]|intros _].
    apply hoare_bind with (R := fun _ => accumulation_inv st);
      [now apply hoare_gets|intros c4].
    apply hoare_bind with (R := fun _ => accumulation_inv st).
    { apply (inv_after_optional_step st c4 inpolecons pole_val).
      - apply pole_val_same.
      - intros P HP. now apply hoare_inpolecons. }
    intros _.
    apply hoare_bind with (R := fun _ => accumulation_inv st);
      [now apply hoare_gets|intros c5].
    apply hoare_bind with (R := fun _ => accumulation_inv st).
    { apply (inv_after_optional_step st c5 inramcons ram_val).
      - apply ram_val_same.
      - intros P HP. now apply hoare_inramcons. }
    intros _.
    apply hoare_bind
      with (R := fun a s => accumulation_inv st s /\ a = inconstraint s);
      [apply hoare_gets; now intros s|intros [a|]].
    + apply hoare_bind with (R := fun _ => accumulation_inv st);
        [apply hoare_assign; now intros s (H & _)|intros _].
      apply hoare_bind with (R := fun _ => accumulation_inv st);
        [now apply hoare_gets|intros e].
      destruct (length e =? 0).
      * apply hoare_bind with (R := fun _ => accumulation_inv st);
          [now apply hoare_assign|intros _].
        apply hoare_ret. intros s. now apply inv_get_post.
      * apply hoare_ret. intros s. now apply inv_get_post.
    + intros s ((_ & _ & _ & Hv & _) & Ha).
      unfold bound_in_slice in Hv. now rewrite <- Ha in Hv.
Qed.

End Get_frame.

Section Get_facts.

Context {AP : Astropy}.
Context {CO : Collaborators}.

(** X2.  Whatever the query, the only exception the body of [get] raises is
    numpy's [ValueError], for arrays whose lengths do not go together: the
    combined array is bound whenever it is read, and the second read of the
    pole or ram accessor, after the test against [None], returns the array
    again and never [None]. *)
Theorem get_raises_only_value_error st e :
  get st = Raise e -> e = ValueError.
Proof.
  intros H. pose proof (get_hoare st st eq_refl) as G.
  now rewrite H in G.
Qed.

(** X3.  When [get] returns, be it [None] or [False], it has rounded [begin]
    and assigned nothing else the caller sets: the ephemeris, the end time,
    the target, the six flags and every angle are what they were. *)
Theorem get_keeps_settings st r st' :
  get st = Ok (r, st') ->
  begin st' = round_time (begin st) 60 /\
  settings st' = settings st /\
  ephem st' = ephem st /\ end_ st' = end_ st /\
  ra st' = ra st /\ dec st' = dec st /\ isat st' = isat st /\
  saa_cons st' = saa_cons st /\ earth_cons st' = earth_cons st /\
  moon_cons st' = moon_cons st /\ sun_cons st' = sun_cons st /\
  pole_cons st' = pole_cons st /\ ram_cons st' = ram_cons st.
Proof.
  intros H. pose proof (get_hoare st st eq_refl) as G. rewrite H in G.
  destruct G as (Hs & Hb & _).
  split; [exact Hb|]. split; [exact Hs|].
  repeat split;
    match goal with
    | |- ?f st' = ?f st =>
        change (f (settings st') = f (settings st)); now rewrite Hs
    end.
Qed.

(** X4.  When [get] returns, the provider's SAA array has kept its length,
    no sample of it that was true has become false, and no sample outside
    the active slice has changed; with the SAA constraint disabled the array
    is untouched. *)
Theorem get_only_ors_into_saa_slice st r st' :
  get st = Ok (r, st') ->
  length (saa_insaacons (saa st')) = length (saa_insaacons (saa st)) /\
  (forall i, nth_error (saa_insaacons (saa st)) i = Some true ->
             nth_error (saa_insaacons (saa st')) i = Some true) /\
  (forall i, i < ephstart st' \/ ephstop st' <= i ->
             nth_error (saa_insaacons (saa st')) i
             = nth_error (saa_insaacons (saa st)) i) /\
  (saa_cons st = false -> saa st' = saa st).
Proof.
  intros H. pose proof (get_hoare st st eq_refl) as G. rewrite H in G.
  destruct G as (_ & _ & (Hl & Hm & Ho) & Hf & _). auto.
Qed.

(** X1.  [get] returns [False] exactly when validation rejects the request.
    It has then emptied the window list, so that [visible] is false at every
    time, rounded [begin] and taken the status validation left; it has read
    no accessor, and the combined array of an earlier call, if any, is still
    in place. *)
Theorem rejected_get st :
  (accepted st = false <-> exists st', get st = Ok (RFalse, st')) /\
  forall st',
    get st = Ok (RFalse, st') ->
    entries st' = [] /\ (forall t, visible st' t = false) /\
    begin st' = round_time (begin st) 60 /\
    status st' = snd (validate_get (reset st)) /\
    inconstraint st' = inconstraint st /\ saa st' = saa st /\
    _skycoord st' = _skycoord st /\ _inearthcons st' = _inearthcons st /\
    _insuncons st' = _insuncons st /\ _inmooncons st' = _inmooncons st /\
    _inramcons st' = _inramcons st /\ _inpolecons st' = _inpolecons st.
Proof.
  assert (Hr : forall st', get st = Ok (RFalse, st') ->
                           accepted st = false /\ st' = prepared st).
  { intros st' H. pose proof (get_hoare st st eq_refl) as G.
    rewrite H in G. now destruct G as (_ & _ & _ & _ & G). }
  split.
  - split.
    + intros H. exists (prepared st). now apply get_rejected.
    + intros (st' & H). now destruct (Hr st' H).
  - intros st' H. destruct (Hr st' H) as (_ & ->). repeat split.
Qed.

End Get_facts.

(** ** [constraint], [saa_windows] and [insaa] *)

Section Lookups.

Context {AP : Astropy}.
Context {CO : Collaborators}.

Ltac walk P :=
  repeat match goal with
         | |- hoare _ _ (bind _ _) _ =>
             apply hoare_bind with (R := fun _ => P);
             [first [ apply hoare_gets; now auto
                    | apply hoare_lift; now auto
                    | apply hoare_insuncons; [exact I|apply same_trans]
                    | apply hoare_inmooncons; [exact I|apply same_trans]
                    | apply hoare_inearthcons; [exact I|apply same_trans] ]
             |intros ?]
         | |- hoare _ _ (if ?c then _ else _) _ => destruct c
         | |- hoare _ _ (match ?c with _ => _ end) _ => destruct c
         | |- hoare _ _ (ret _) _ => apply hoare_ret; now auto
         | |- hoare _ _ (lift _) _ => apply hoare_lift; now auto
         end.

Lemma getitem_raises {A} (l : list A) i e :
  Np.getitem l i = Raise e -> e = IndexError.
Proof.
  unfold Np.getitem. destruct (nth_error l i); [discriminate|].
  now intros [= <-].
Qed.

Lemma constraint_same st index :
  hoare (fun _ => True) (same st) (constraint index) (fun _ => same st).
Proof. unfold constraint. walk (same st). Qed.

Lemma classify_same st st' index :
  same st st' -> classify st' index = classify st index.
Proof.
  intros H. destruct (same_frame _ _ H) as (_ & Hb & Hsaa & Hi & _).
  pose proof H as (U & _ & He & Hs & Hm & _).
  assert (Ht : timestamp st' = timestamp st)
    by (change (timestamp (uncached st') = timestamp (uncached st));
        now rewrite U).
  assert (Hend : end_ st' = end_ st)
    by (change (end_ (uncached st') = end_ (uncached st)); now rewrite U).
  unfold classify.
  rewrite Ht, Hb, Hend, Hi, He, Hs, Hm, (same_saa_val _ _ H).
  destruct (inconstraint st) as [a|]; [|reflexivity].
  assert (Hc : contents st' a = contents st a)
    by (destruct a; simpl; now rewrite ?Hsaa).
  now rewrite Hc.
Qed.

(** X13.  [constraint] is a lookup: when it returns it has changed nothing
    but cached attributes, and from the state it leaves every index gets the
    answer it would have got before. *)
Theorem constraint_only_reads st index label st' :
  constraint index st = Ok (label, st') ->
  uncached st' = uncached st /\
  forall j, value (constraint j st') = value (constraint j st).
Proof.
  intros H. pose proof (constraint_same st index st (same_refl st)) as G.
  rewrite H in G. split; [exact (proj1 G)|].
  intros j. rewrite !constraint_classify. now apply classify_same.
Qed.

(** X12.  [constraint] raises [IndexError] for an index past the last sample
    of the active slice.  Before [get] has bound the combined array it still
    answers ["Window"] for the samples at or outside the bounds of the query,
    leaving the state as it is, and raises [AttributeError] for the samples
    inside.  It never raises [TypeError]. *)
Theorem constraint_errors st index :
  (len st <= index -> constraint index st = Raise IndexError) /\
  (forall t,
     inconstraint st = None ->
     nth_error (timestamp st) index = Some t ->
     constraint index st
     = if ((t <=? begin st) || (t >=? end_ st))%Z
       then Ok ("Window"%string, st)
       else Raise AttributeError) /\
  (forall e, constraint index st = Raise e -> lookup_errors e).
Proof.
  split; [|split].
  - intros H. unfold constraint. rewrite bind_gets, bind_lift.
    unfold Np.getitem.
    now replace (nth_error (timestamp st) index) with (@None Z)
      by (symmetry; apply nth_error_None; exact H).
  - intros t Hn Ht. unfold constraint. rewrite bind_gets, bind_lift.
    unfold Np.getitem. rewrite Ht, !bind_gets.
    destruct ((t <=? begin st) || (t >=? end_ st))%Z; [reflexivity|].
    now rewrite bind_gets, Hn.
  - intros e H.
    assert (Hv : value (constraint index st) = Raise e) by now rewrite H.
    rewrite constraint_classify in Hv. revert Hv.
    unfold classify, lookup_errors.
    repeat match goal with
           | |- context [rbind ?r _] => destruct r eqn:?; cbn [rbind]
           | |- context [if ?x then _ else _] => destruct x
           | |- context [match inconstraint st with _ => _ end] =>
               destruct (inconstraint st)
           end;
      intros [= <-]; auto;
      first [ left; eapply getitem_raises; eassumption
            | right; right; eapply sun_val_raises; eassumption
            | right; right; eapply moon_val_raises; eassumption
            | right; right; eapply earth_val_raises; eassumption ].
Qed.

Lemma scan_saa_iff wins t :
  scan_saa wins t = true
  <-> exists win, In win wins /\ (fst win <= t <= snd win)%Z.
Proof.
  induction wins as [|w ws IH]; simpl.
  - split; [discriminate | intros (win & [] & _)].
  - destruct ((t >=? fst w) && (t <=? snd w))%Z eqn:E.
    + split; [|reflexivity]. intros _. exists w.
      apply andb_true_iff in E. split; [now left | lia].
    + rewrite IH. apply andb_false_iff in E. split.
      * intros (win & Hin & Hr). exists win. split; [now right | exact Hr].
      * intros (win & [<- | Hin] & Hr); [lia | now exists win].
Qed.

(** X14.  [insaa] answers true exactly for the times that lie in the closed
    interval of some window of [saa_windows].  On the first read those are
    the windows [make_windows] makes of the negated SAA samples of the active
    slice; the list is then kept, so that a later read returns it again
    whatever has happened to the query and to the provider in between.  No
    read changes the query itself. *)
Theorem insaa_scans_cached_windows o t :
  (fst (insaa o t) = true
   <-> exists win, In win (fst (saa_windows o))
                   /\ (fst win <= t <= snd win)%Z) /\
  (_saa_windows o = None ->
   fst (saa_windows o)
   = make_windows (self o) (map negb (saa_val (self o)))) /\
  (forall st,
     fst (saa_windows {| self := st;
                         _saa_windows := _saa_windows (snd (saa_windows o)) |})
     = fst (saa_windows o)) /\
  self (snd (saa_windows o)) = self o /\
  snd (insaa o t) = snd (saa_windows o).
Proof.
  unfold insaa. split; [|split; [|split; [|split]]].
  - destruct (saa_windows o) as [w o']. apply scan_saa_iff.
  - intros H. unfold saa_windows. rewrite H. cbv zeta. cbn [fst].
    now rewrite contents_insaacons.
  - intros st. unfold saa_windows.
    destruct (_saa_windows o) eqn:E; cbn; now rewrite ?E.
  - unfold saa_windows. now destruct (_saa_windows o).
  - now destruct (saa_windows o).
Qed.

End Lookups.

(** ** The combined array under the SAA constraint *)

Section Saa_view.

Context {AP : Astropy}.
Context {CO : Collaborators}.

Lemma viewed_same st st' :
  inconstraint st = Some (insaacons st) -> same st st' ->
  inconstraint st' = Some (insaacons st').
Proof.
  intros H Hs.
  destruct (same_frame _ _ Hs) as (_ & _ & Hsaa & Hi & Hb & He).
  rewrite Hi, H. unfold insaacons, active. now rewrite Hsaa, Hb, He.
Qed.

(** [+=] on the view writes into the provider's array and leaves the view
    where it was. *)
Lemma hoare_iadd_view src :
  hoare (fun _ => True) (fun s => inconstraint s = Some (insaacons s))
    (iadd_inconstraint src)
    (fun _ s => inconstraint s = Some (insaacons s)).
Proof.
  intros st H. unfold iadd_inconstraint. rewrite H.
  destruct (Np.iadd _ src) as [l|e] eqn:Ei; [|exact I].
  destruct (iadd_grows _ _ _ Ei) as (Ll & _).
  unfold insaacons, active in *. cbn [contents store] in *.
  rewrite !slice_length in Ll. cbn.
  set (arr := saa_insaacons (saa st)) in *.
  assert (Hl : length (Np.splice arr (Nat.min (ephstart st) (length arr)) l)
               = length arr)
    by (apply splice_length; lia).
  unfold insaacons, active. cbn. fold arr.
  now rewrite !slice_length, Hl.
Qed.

Ltac view_step :=
  let viewed := constr:(fun s => inconstraint s = Some (insaacons s)) in
  match goal with
  | |- hoare _ _ (bind _ _) _ =>
      apply hoare_bind with (R := fun _ => viewed); [|intros ?]
  | |- hoare _ _ (when _ _) _ => apply hoare_when
  | |- hoare _ _ (gets _) _ => apply hoare_gets; now auto
  | |- hoare _ _ (ret _) _ => apply hoare_ret; now auto
  | |- hoare _ _ (lift _) _ => apply hoare_lift; [easy|discriminate]
  | |- hoare _ _ (assign _) _ => apply hoare_assign; intros ? H; exact H
  | |- hoare _ _ (iadd_inconstraint _) _ => apply hoare_iadd_view
  | |- hoare _ _ inearthcons _ =>
      apply hoare_inearthcons; [exact I|apply viewed_same]
  | |- hoare _ _ inmooncons _ =>
      apply hoare_inmooncons; [exact I|apply viewed_same]
  | |- hoare _ _ insuncons _ =>
      apply hoare_insuncons; [exact I|apply viewed_same]
  | |- hoare _ _ inpolecons _ =>
      apply hoare_weaken
        with (P' := viewed) (Q' := fun r s => viewed s /\ pole_val s = Ok r);
      [apply hoare_inpolecons; [exact I|apply viewed_same]
      |now auto|now intros ? ? []]
  | |- hoare _ _ inramcons _ =>
      apply hoare_weaken
        with (P' := viewed) (Q' := fun r s => viewed s /\ ram_val s = Ok r);
      [apply hoare_inramcons; [exact I|apply viewed_same]
      |now auto|now intros ? ? []]
  | |- hoare _ _ (match ?c with _ => _ end) _ => destruct c
  end.

(** With the SAA constraint enabled, a query that [get] accepts ends with
    the combined array bound to the view of the provider's SAA array. *)
Lemma get_binds_saa_view st st' :
  saa_cons st = true -> get st = Ok (RNone, st') ->
  inconstraint st' = Some (insaacons st').
Proof.
  intros Hc Hg.
  assert (H : hoare (fun _ => True) (fun s => saa_cons s = true) get
                (fun r s => r = RNone -> inconstraint s = Some (insaacons s))).
  { unfold get.
    apply hoare_bind with (R := fun _ s => saa_cons s = true);
      [apply hoare_gets; now auto|intros b].
    apply hoare_bind with (R := fun _ s => saa_cons s = true);
      [apply hoare_assign; now auto|intros _].
    apply hoare_bind with (R := fun _ s => saa_cons s = true);
      [apply hoare_assign; now auto|intros _].
    apply hoare_bind with (R := fun _ s => saa_cons s = true);
      [apply hoare_gets; now auto|intros v].
    apply hoare_bind with (R := fun _ s => saa_cons s = true);
      [apply hoare_assign; now auto|intros _].
    destruct (negb (fst v)); [apply hoare_ret; discriminate|].
    apply hoare_bind with (R := fun _ s => saa_cons s = true);
      [apply hoare_gets; now auto|intros n].
    apply hoare_bind with (R := fun _ s => saa_cons s = true);
      [apply hoare_assign; now auto|intros _].
    apply hoare_bind with (R := fun c s => c = true /\ saa_cons s = true);
      [apply hoare_gets; now auto|intros c].
    apply hoare_bind
      with (R := fun _ s => inconstraint s = Some (insaacons s)).
    { intros s (-> & _). reflexivity. }
    intros _.
    repeat view_step. }
  specialize (H st Hc). now rewrite Hg in H; apply H.
Qed.

(** After such a query no sample is answered ["Unknown"]: a sample that only
    the pole or the ram constraint blocks reads as blocked by the SAA. *)
Lemma get_with_saa_never_unknown st st' i :
  saa_cons st = true -> get st = Ok (RNone, st') ->
  value (constraint i st') <> Ok "Unknown"%string.
Proof.
  intros Hc Hg. apply view_state_never_unknown.
  exact (get_binds_saa_view _ _ Hc Hg).
Qed.

End Saa_view.

(** ** Enabling constraints *)

Section Monotone.

Context {AP : Astropy}.
Context {CO : Collaborators}.

Lemma contribution_mono (f f' : bool) arr i :
  (f = true -> f' = true) ->
  contribution f arr i = true -> contribution f' arr i = true.
Proof.
  unfold contribution. destruct f; [|discriminate].
  intros H. now rewrite (H eq_refl).
Qed.

Lemma get_run_combined st st' :
  aligned (prepared st) = true ->
  get st = Ok (RNone, st') ->
  exists earth moon sun pole ram,
    earth_val (prepared st) = Ok earth /\
    moon_val (prepared st) = Ok moon /\
    sun_val (prepared st) = Ok sun /\
    pole_val (prepared st) = Ok pole /\
    ram_val (prepared st) = Ok ram /\
    length (saa_val (prepared st)) = len (prepared st) /\
    length earth = len (prepared st) /\
    length moon = len (prepared st) /\
    length sun = len (prepared st) /\
    (forall a, pole = Some a -> length a = len (prepared st)) /\
    (forall a, ram = Some a -> length a = len (prepared st)) /\
    option_map (contents st') (inconstraint st')
    = Some (combined (prepared st) (saa_val (prepared st))
              earth moon sun pole ram).
Proof.
  intros Hal Hget.
  destruct (aligned_arrays _ Hal)
    as (earth & moon & sun & pole & ram & He & Hm & Hs & Hp & Hr
        & Lsaa & Le & Lm & Ls & Lp & Lr).
  assert (Hok : accepted st = true).
  { destruct (accepted st) eqn:E; [reflexivity|].
    rewrite (get_rejected st E) in Hget. discriminate. }
  destruct (get_run st earth moon sun pole ram Hok He Hm Hs Hp Hr
              Lsaa Le Lm Ls Lp Lr)
    as (stw & a & Hrun & Hk & Ha & Hc & Hv & _).
  rewrite Hrun in Hget. injection Hget as <-.
  destruct (finish_combined stw a) as (Fi & Fc & _).
  exists earth, moon, sun, pole, ram.
  repeat (split; [assumption|]).
  now rewrite Fi, Ha; cbn; rewrite Fc, Hc.
Qed.

(** X16.  Enabling constraints only blocks more: of two calls of [get] that
    differ only in their flags, the second with every flag of the first set,
    the second leaves the combined array true wherever the first does. *)
Theorem enabling_only_blocks st c_saa c_earth c_moon c_sun c_pole c_ram
    st1 st2 comb1 comb2 :
  (saa_cons st = true -> c_saa = true) ->
  (earth_cons st = true -> c_earth = true) ->
  (moon_cons st = true -> c_moon = true) ->
  (sun_cons st = true -> c_sun = true) ->
  (pole_cons st = true -> c_pole = true) ->
  (ram_cons st = true -> c_ram = true) ->
  aligned (prepared st) = true ->
  get st = Ok (RNone, st1) ->
  get (with_flags c_saa c_earth c_moon c_sun c_pole c_ram st)
  = Ok (RNone, st2) ->
  option_map (contents st1) (inconstraint st1) = Some comb1 ->
  option_map (contents st2) (inconstraint st2) = Some comb2 ->
  forall i, nth i comb1 false = true -> nth i comb2 false = true.
Proof.
  intros F1 F2 F3 F4 F5 F6 Hal G1 G2 C1 C2 i.
  set (stf := with_flags c_saa c_earth c_moon c_sun c_pole c_ram st) in *.
  destruct (get_run_combined st st1 Hal G1)
    as (earth & moon & sun & pole & ram & He & Hm & Hs & Hp & Hr
        & Lsaa & Le & Lm & Ls & Lp & Lr & K1).
  assert (Hal2 : aligned (prepared stf) = true) by exact Hal.
  destruct (get_run_combined stf st2 Hal2 G2)
    as (earth' & moon' & sun' & pole' & ram' & He' & Hm' & Hs' & Hp' & Hr'
        & _ & _ & _ & _ & _ & _ & K2).
  assert (earth' = earth)
    by (change (earth_val (prepared st) = Ok earth') in He'; congruence).
  assert (moon' = moon)
    by (change (moon_val (prepared st) = Ok moon') in Hm'; congruence).
  assert (sun' = sun)
    by (change (sun_val (prepared st) = Ok sun') in Hs'; congruence).
  assert (pole' = pole)
    by (change (pole_val (prepared st) = Ok pole') in Hp'; congruence).
  assert (ram' = ram)
    by (change (ram_val (prepared st) = Ok ram') in Hr'; congruence).
  subst earth' moon' sun' pole' ram'.
  rewrite C1 in K1. injection K1 as ->.
  rewrite C2 in K2. injection K2 as ->.
  change (saa_val (prepared stf)) with (saa_val (prepared st)).
  destruct (nth_combined (prepared st) _ earth moon sun pole ram i
              Lsaa Le Lm Ls Lp Lr) as (_ & ->).
  destruct (nth_combined (prepared stf) (saa_val (prepared st))
              earth moon sun pole ram i Lsaa Le Lm Ls Lp Lr) as (_ & ->).
  change (saa_cons (prepared stf)) with c_saa.
  change (earth_cons (prepared stf)) with c_earth.
  change (moon_cons (prepared stf)) with c_moon.
  change (sun_cons (prepared stf)) with c_sun.
  change (pole_cons (prepared stf)) with c_pole.
  change (ram_cons (prepared stf)) with c_ram.
  change (saa_cons (prepared st)) with (saa_cons st).
  change (earth_cons (prepared st)) with (earth_cons st).
  change (moon_cons (prepared st)) with (moon_cons st).
  change (sun_cons (prepared st)) with (sun_cons st).
  change (pole_cons (prepared st)) with (pole_cons st).
  change (ram_cons (prepared st)) with (ram_cons st).
  intros H. rewrite !orb_true_iff in H.
  destruct H as [[[[[H|H]|H]|H]|H]|H].
  - apply (contribution_mono _ _ _ _ F1) in H. now rewrite H.
  - apply (contribution_mono _ _ _ _ F2) in H. now rewrite H, ?orb_true_r.
  - apply (contribution_mono _ _ _ _ F3) in H. now rewrite H, ?orb_true_r.
  - apply (contribution_mono _ _ _ _ F4) in H. now rewrite H, ?orb_true_r.
  - apply (contribution_mono _ _ _ _ F5) in H. now rewrite H, ?orb_true_r.
  - apply (contribution_mono _ _ _ _ F6) in H. now rewrite H, ?orb_true_r.
Qed.

End Monotone.

(** ** The further statements on explicit data *)

Import More.

Lemma rejected_get_witness :
  accepted q_reversed = false /\
  get q_reversed = Ok (RFalse, after q_reversed) /\
  entries q_reversed = [(0, 60)]%Z /\
  entries (after q_reversed) = [].
Proof.
  assert (H : get q_reversed = Ok (RFalse, after q_reversed))
    by (vm_compute; reflexivity).
  split; [vm_compute; reflexivity|]. split; [exact H|].
  split; [reflexivity|].
  exact (proj1 (proj2 (rejected_get q_reversed) _ H)).
Defined.

Lemma get_raises_only_value_error_witness :
  get q_short_earth = Raise ValueError /\ ValueError = ValueError.
Proof.
  assert (H : get q_short_earth = Raise ValueError)
    by (vm_compute; reflexivity).
  split; [exact H|].
  exact (get_raises_only_value_error q_short_earth ValueError H).
Defined.

Lemma get_keeps_settings_witness :
  get q_middle = Ok (RNone, after q_middle) /\
  ephem (after q_middle) = ephem q_middle /\
  end_ (after q_middle) = end_ q_middle.
Proof.
  assert (H : get q_middle = Ok (RNone, after q_middle))
    by (vm_compute; reflexivity).
  split; [exact H|].
  destruct (get_keeps_settings q_middle RNone (after q_middle) H)
    as (_ & _ & He & Hn & _).
  now split.
Defined.

Lemma get_only_ors_into_saa_slice_witness :
  get q_middle = Ok (RNone, after q_middle) /\
  ephstart (after q_middle) = 1 /\
  nth_error (saa_insaacons (saa (after q_middle))) 0
  = nth_error (saa_insaacons (saa q_middle)) 0.
Proof.
  assert (H : get q_middle = Ok (RNone, after q_middle))
    by (vm_compute; reflexivity).
  split; [exact H|]. split; [vm_compute; reflexivity|].
  destruct (get_only_ors_into_saa_slice q_middle RNone (after q_middle) H)
    as (_ & _ & Ho & _).
  apply Ho. left. vm_compute. lia.
Defined.

Lemma earth_constraint_formula_witness :
  nth_error [false; false; true; false; false; false] 2
  = Some (Z.abs (20 - 0) <? 30 + 0 + 70)%Z.
Proof.
  exact (proj1 (earth_constraint_formula q_all
                  [false; false; true; false; false; false]
                  (run inearthcons q_all) 2 20%Z 70%Z 0%Z
                  eq_refl eq_refl eq_refl eq_refl eq_refl)).
Defined.

Lemma sun_constraint_formula_witness :
  nth_error [false; false; false; false; false; false] 0
  = Some (Z.abs (100 - 0) <? 45 + 0)%Z.
Proof.
  exact (proj1 (sun_constraint_formula q_all
                  [false; false; false; false; false; false]
                  (run insuncons q_all) 0 100%Z 0%Z
                  eq_refl eq_refl eq_refl eq_refl)).
Defined.

Lemma moon_constraint_formula_witness :
  nth_error [false; false; false; false; false; false] 0
  = Some (Z.abs (100 - 0) <? 20 + 0)%Z.
Proof.
  exact (proj1 (moon_constraint_formula q_all
                  [false; false; false; false; false; false]
                  (run inmooncons q_all) 0 100%Z 0%Z
                  eq_refl eq_refl eq_refl eq_refl)).
Defined.

Lemma ram_constraint_formula_witness :
  inramcons q_no_velocity = Ok (None, q_no_velocity) /\
  nth_error [false; true; false; false; false; false] 1
  = Some (Z.abs (8 - 0) <? 10 + 0)%Z.
Proof.
  split.
  - exact (proj1 (ram_constraint_formula q_no_velocity) eq_refl).
  - exact (proj1 (proj2 (proj2 (ram_constraint_formula q_all))
                    [false; true; false; false; false; false]
                    (run inramcons q_all)
                    [200; 8; 200; 200; 200; 200]%Z 1 8%Z 0%Z
                    eq_refl eq_refl eq_refl eq_refl eq_refl)).
Defined.

Lemma arrays_cover_slice_witness :
  on_grid q_all = true /\ sky_fits q_all = true /\
  exists a st', inearthcons q_all = Ok (a, st') /\
                (_inearthcons q_all = None -> length a = len q_all).
Proof.
  split; [reflexivity|]. split; [reflexivity|].
  exact (proj1 (arrays_cover_slice q_all eq_refl eq_refl)).
Defined.

Lemma target_per_sample_witness :
  exists sc st',
    skycoord q_all = Ok (sc, st') /\ _skycoord st' = Some sc /\
    target_at sc 3 = Some 0%Z.
Proof.
  exact (target_per_sample q_all 3 180%Z eq_refl eq_refl).
Defined.

Lemma reads_are_independent_witness :
  value (insuncons (run inearthcons q_all)) = value (insuncons q_all).
Proof.
  assert (H : reads q_all (run inearthcons q_all)).
  { apply (reads_earth q_all [false; false; true; false; false; false]).
    vm_compute. reflexivity. }
  exact (proj1 (proj2 (proj2 (proj2 (reads_are_independent _ _ H))))).
Defined.

Lemma constraint_errors_witness :
  len q_all <= 6 /\ constraint 6 q_all = Raise IndexError /\
  constraint 0 q_all = Ok ("Window"%string, q_all) /\
  constraint 2 q_all = Raise AttributeError.
Proof.
  assert (L : len q_all <= 6) by (vm_compute; lia).
  split; [exact L|]. split; [|split].
  - exact (proj1 (constraint_errors q_all 6) L).
  - exact (proj1 (proj2 (constraint_errors q_all 0)) 0%Z eq_refl eq_refl).
  - exact (proj1 (proj2 (constraint_errors q_all 2)) 120%Z eq_refl eq_refl).
Defined.

Lemma constraint_only_reads_witness :
  constraint 4 (after q_no_saa)
  = Ok ("Unknown"%string, run (constraint 4) (after q_no_saa)) /\
  value (constraint 2 (run (constraint 4) (after q_no_saa)))
  = value (constraint 2 (after q_no_saa)).
Proof.
  assert (H : constraint 4 (after q_no_saa)
              = Ok ("Unknown"%string, run (constraint 4) (after q_no_saa)))
    by (vm_compute; reflexivity).
  split; [exact H|].
  exact (proj2 (constraint_only_reads _ _ _ _ H) 2).
Defined.

Lemma insaa_scans_cached_windows_witness :
  _saa_windows o_unread = None /\
  fst (saa_windows o_unread)
  = make_windows (self o_unread) (map negb (saa_val (self o_unread))) /\
  fst (saa_windows o_unread) = [(120, 120); (300, 300)]%Z /\
  fst (insaa o_unread 120) = true /\ fst (insaa o_unread 180) = false.
Proof.
  split; [reflexivity|]. split.
  - exact (proj1 (proj2 (insaa_scans_cached_windows o_unread 0)) eq_refl).
  - repeat match goal with |- _ /\ _ => split end; vm_compute; reflexivity.
Defined.

Lemma slice_includes_end_sample_witness :
  len q_middle = 5 /\
  nth_error (timestamp q_middle) 0 = Some 60%Z /\
  nth_error (timestamp q_middle) (len q_middle - 1) = Some 300%Z.
Proof.
  destruct (proj1 (slice_includes_end_sample q_middle)) as (L & F & E).
  - vm_compute. lia.
  - vm_compute. lia.
  - split; [exact L|]. split; [exact F|exact E].
Defined.

Lemma enabling_only_blocks_witness :
  nth 2 [false; true; true; false; true; false] false = true.
Proof.
  apply (enabling_only_blocks q_saa_earth true true true true true true
           (after q_saa_earth)
           (after (with_flags true true true true true true q_saa_earth))
           [false; false; true; false; false; false]
           [false; true; true; false; true; false]);
    try (intros _; reflexivity); vm_compute; reflexivity.
Defined.
